(** * File identity manager: a shallow embedding of
      [jupyter_server/services/contents/fileidmanager.py]

    The manager keeps one SQLite table [Files(id BLOB PRIMARY KEY,
    path TEXT NOT NULL UNIQUE)] and offers [index], [insert], [get_id],
    [get_path], [move], [copy] and [delete].  The embedding has five
    layers:

    - [Str]: the Python string operations the code relies on;
    - [Uuid]: [uuid.UUID], [uuid.uuid4], [UUID.hex] and [str(UUID)];
    - [PosixPath]: [os.path.normcase], [os.path.normpath], [os.path.join]
      in their POSIX versions;
    - [Sqlite]: the table, its two uniqueness constraints, [GLOB],
      [substr] and the statement shapes the manager executes;
    - [FileIdManager]: the methods, written in a small state-and-exception
      monad over the connection.

    What is assumed of the environment:

    - the host is a POSIX one ([os.path] is [posixpath]);
    - a string is a sequence of characters, one [ascii] each: the code
      points below 256, so that Python's [len] and SQLite's [substr] count
      the same units and the order of the index on [path] is the order of
      the code points;
    - [os.urandom] is a function of the number of draws made so far; it
      is part of the connection, and nothing is assumed of its values;
    - SQLite rewrites the rows of an [UPDATE] in rowid order, reads the
      rows of the [SELECT] of [INSERT ... SELECT] through the index on
      [path], in the order of the paths, and checks the uniqueness
      constraints row by row; a statement that fails is undone as a whole
      and the transaction stays open (conflict resolution [ABORT]);
    - [GLOB] and [substr] read their text arguments as C strings: what
      follows a NUL character is not seen;
    - the table is only ever reached through one connection. *)

From Stdlib Require Import String Ascii List NArith Bool Arith Lia Permutation.
Import ListNotations.
Open Scope string_scope.

(** ** Python string operations *)

Module Str.

Definition eqb_ascii (a b : ascii) : bool := Ascii.eqb a b.

(** [c in chars] *)
Fixpoint mem (c : ascii) (chars : string) : bool :=
  match chars with
  | EmptyString => false
  | String d rest => eqb_ascii c d || mem c rest
  end.

Definition is_empty (s : string) : bool :=
  match s with EmptyString => true | String _ _ => false end.

(** [s.startswith(p)] *)
Fixpoint startswith (p s : string) : bool :=
  match p with
  | EmptyString => true
  | String a p' =>
      match s with
      | EmptyString => false
      | String b s' => eqb_ascii a b && startswith p' s'
      end
  end.

(** the last character of [s], if any *)
Fixpoint last_char (s : string) : option ascii :=
  match s with
  | EmptyString => None
  | String c EmptyString => Some c
  | String _ s' => last_char s'
  end.

(** [s.endswith("/")] and the like, for a one-character suffix *)
Definition endswith_char (c : ascii) (s : string) : bool :=
  match last_char s with
  | Some d => eqb_ascii c d
  | None => false
  end.

(** [s[n:]] *)
Fixpoint drop (n : nat) (s : string) : string :=
  match n with
  | O => s
  | S n' => match s with EmptyString => EmptyString | String _ s' => drop n' s' end
  end.

(** [s[:n]] *)
Fixpoint take (n : nat) (s : string) : string :=
  match n with
  | O => EmptyString
  | S n' => match s with EmptyString => EmptyString | String c s' => String c (take n' s') end
  end.

(** [s.lstrip(chars)] *)
Fixpoint lstrip (chars s : string) : string :=
  match s with
  | EmptyString => EmptyString
  | String c s' => if mem c chars then lstrip chars s' else s
  end.

(** [s.rstrip(chars)] *)
Fixpoint rstrip (chars s : string) : string :=
  match s with
  | EmptyString => EmptyString
  | String c s' =>
      let r := rstrip chars s' in
      if is_empty r && mem c chars then EmptyString else String c r
  end.

(** [s.strip(chars)] *)
Definition strip (chars s : string) : string := rstrip chars (lstrip chars s).

(** [s.replace(c, "")] for a single character [c] *)
Fixpoint remove_char (c : ascii) (s : string) : string :=
  match s with
  | EmptyString => EmptyString
  | String d s' => if eqb_ascii c d then remove_char c s' else String d (remove_char c s')
  end.

(** [s.replace(pat, "")] for a non-empty [pat]: occurrences are found left
    to right and do not overlap.  [skip] counts the characters of an
    occurrence still to be dropped. *)
Fixpoint remove_sub_from (pat : string) (skip : nat) (s : string) : string :=
  match s with
  | EmptyString => EmptyString
  | String c s' =>
      match skip with
      | S k => remove_sub_from pat k s'
      | O =>
          if startswith pat s
          then remove_sub_from pat (String.length pat - 1) s'
          else String c (remove_sub_from pat 0 s')
      end
  end.

Definition remove_sub (pat s : string) : string := remove_sub_from pat 0 s.

(** [sep.join(parts)] *)
Fixpoint join (sep : string) (parts : list string) : string :=
  match parts with
  | [] => EmptyString
  | [p] => p
  | p :: rest => p ++ sep ++ join sep rest
  end.

(** [s.split(c)] for a one-character separator: always at least one part. *)
Fixpoint split (c : ascii) (s : string) : list string :=
  match s with
  | EmptyString => [EmptyString]
  | String d s' =>
      if eqb_ascii c d then EmptyString :: split c s'
      else match split c s' with
           | [] => [String d EmptyString]
           | p :: ps => String d p :: ps
           end
  end.

(** every character of [s] satisfies [f] *)
Fixpoint forallb (f : ascii -> bool) (s : string) : bool :=
  match s with
  | EmptyString => true
  | String c s' => f c && forallb f s'
  end.

End Str.

(** ** [uuid.UUID]

    A UUID object holds a 128-bit integer.  [hex] is ['%032x' % int],
    [str] the 8-4-4-4-12 form, [of_string] the constructor [UUID(hex=s)],
    which raises [ValueError] ([None] here) on a badly formed string. *)

Module Uuid.

Local Open Scope N_scope.

Definition bits128 : N := 2 ^ 128.

(** [uuid.uuid4()] on the sixteen bytes [os.urandom(16)], read as a
    big-endian integer: the variant and version fields are overwritten. *)
Definition uuid4_of_random (r : N) : N :=
  let i := r mod bits128 in
  let i := N.ldiff i (N.shiftl 0xc000 48) in
  let i := N.lor i (N.shiftl 0x8000 48) in
  let i := N.ldiff i (N.shiftl 0xf000 64) in
  N.lor i (N.shiftl 4 76).

Definition hexdigit (d : N) : ascii :=
  if d <? 10 then ascii_of_N (48 + d) else ascii_of_N (87 + d).

(** the [k] lowest hexadecimal digits of [n], most significant first *)
Fixpoint hex_digits (k : nat) (n : N) : string :=
  match k with
  | O => EmptyString
  | S k' => hex_digits k' (n / 16) ++ String (hexdigit (n mod 16)) EmptyString
  end.

(** A [uuid.UUID] object: its [int] is a 128-bit value. *)
Record UUID : Type := mkUUID {
  int : N;
  int_range : (int <? bits128) = true
}.

(** [UUID.hex] *)
Definition hex (u : N) : string := hex_digits 32 u.

(** [str(UUID)] *)
Definition str (u : N) : string :=
  let h := hex u in
  Str.take 8 h ++ "-" ++ Str.take 4 (Str.drop 8 h) ++ "-" ++
  Str.take 4 (Str.drop 12 h) ++ "-" ++ Str.take 4 (Str.drop 16 h) ++ "-" ++
  Str.drop 20 h.

(** [_PyLong_DigitValue]: the value of a character as a digit in bases up
    to 36, [None] for any other character. *)
Definition digit_value (c : ascii) : option N :=
  let n := N_of_ascii c in
  if (48 <=? n) && (n <=? 57) then Some (n - 48)
  else if (97 <=? n) && (n <=? 122) then Some (n - 87)
  else if (65 <=? n) && (n <=? 90) then Some (n - 55)
  else None.

Definition underscore : ascii := "_"%char.

(** The digit scanner of [int(s, 16)]: hexadecimal digits, with single
    underscores allowed between digits.  [prev_us]: the previous character
    was an underscore; [seen]: a digit has been read. *)
Fixpoint scan_digits (prev_us seen : bool) (acc : N) (s : string) : option N :=
  match s with
  | EmptyString => if prev_us then None else if seen then Some acc else None
  | String c s' =>
      if Str.eqb_ascii c underscore then
        if prev_us then None else scan_digits true seen acc s'
      else
        match digit_value c with
        | Some d => if d <? 16 then scan_digits false true (acc * 16 + d) s' else None
        | None => None
        end
  end.

(** the characters [int()] skips as white space at both ends: those of
    [Py_ISSPACE] (tab, line feed, vertical tab, form feed, carriage
    return, space) and the two other white-space characters below 256,
    U+0085 and U+00A0, which [int()] turns into a space first.  The
    separators 28 to 31 are not among them: a character below 127 is
    taken as it is. *)
Definition whitespace : string :=
  String (ascii_of_N 9) (String (ascii_of_N 10) (String (ascii_of_N 11)
  (String (ascii_of_N 12) (String (ascii_of_N 13) (String (ascii_of_N 32)
  (String (ascii_of_N 133) (String (ascii_of_N 160) EmptyString))))))).

Definition skip_sign (s : string) : string * bool :=
  match s with
  | String "+"%char s' => (s', false)
  | String "-"%char s' => (s', true)
  | _ => (s, false)
  end.

(** after a [0x] or [0X] prefix one underscore is allowed *)
Definition skip_prefix16 (s : string) : string :=
  match s with
  | String "0"%char (String c s') =>
      if Str.eqb_ascii c "x"%char || Str.eqb_ascii c "X"%char then
        match s' with
        | String "_"%char s'' => s''
        | _ => s'
        end
      else s
  | _ => s
  end.

(** [int(s, 16)]: the magnitude and whether a minus sign was read;
    [None] is [ValueError]. *)
Definition int16 (s : string) : option (N * bool) :=
  let s := Str.strip whitespace s in
  let '(s, neg) := skip_sign s in
  let s := skip_prefix16 s in
  if Str.startswith "_" s then None
  else match scan_digits false false 0 s with
       | Some n => Some (n, neg)
       | None => None
       end.

(** [UUID(hex=s)] *)
Definition of_string (s : string) : option N :=
  let h := Str.remove_sub "uuid:" (Str.remove_sub "urn:" s) in
  let h := Str.remove_char "-"%char (Str.strip "{}" h) in
  if negb (String.length h =? 32)%nat then None
  else match int16 h with
       | Some (n, neg) =>
           if neg then (if n =? 0 then Some 0 else None)
           else if n <? bits128 then Some n else None
       | None => None
       end.

End Uuid.

(** ** [os.path] on a POSIX host ([posixpath]) *)

Module PosixPath.

Definition sep : ascii := "/"%char.

(** [posixpath.normcase] leaves the string as it is. *)
Definition normcase (path : string) : string := path.

Definition is_nil {A} (l : list A) : bool :=
  match l with [] => true | _ :: _ => false end.

(** One turn of the loop of [normpath] over the components.  [new_comps]
    is kept as a stack, last component first: [append] is a cons, [pop]
    drops the head and [new_comps[-1]] is the head. *)
Definition norm_step (initial_slashes : nat) (new_comps : list string)
    (comp : string) : list string :=
  if String.eqb comp "" || String.eqb comp "." then new_comps
  else if negb (String.eqb comp "..")
          || (Nat.eqb initial_slashes 0 && is_nil new_comps)
          || match new_comps with
             | top :: _ => String.eqb top ".."
             | [] => false
             end
       then comp :: new_comps
       else match new_comps with
            | _ :: rest => rest
            | [] => []
            end.

(** POSIX allows one or two initial slashes, and treats three or more as
    a single slash. *)
Definition initial_slashes_of (path : string) : nat :=
  if Str.startswith "/" path then
    if Str.startswith "//" path && negb (Str.startswith "///" path) then 2 else 1
  else 0.

Fixpoint slashes (n : nat) : string :=
  match n with
  | O => EmptyString
  | S n' => String sep (slashes n')
  end.

(** [posixpath.normpath] *)
Definition normpath (path : string) : string :=
  if Str.is_empty path then "."
  else
    let initial_slashes := initial_slashes_of path in
    let comps := Str.split sep path in
    let new_comps := rev (fold_left (norm_step initial_slashes) comps []) in
    let path := slashes initial_slashes ++ Str.join "/" new_comps in
    if Str.is_empty path then "." else path.

(** [posixpath.join(a, b)] for one component [b] *)
Definition join (a b : string) : string :=
  if Str.startswith "/" b then b
  else if Str.is_empty a || Str.endswith_char sep a then a ++ b
  else a ++ "/" ++ b.

End PosixPath.

(** ** The SQLite side

    One table [Files], its rows in rowid order.  [id] carries the text the
    manager binds ([UUID.hex]); both columns are unique. *)

Module Sqlite.

Record Row : Type := mkRow { row_id : string; row_path : string }.

Definition Table : Type := list Row.

(** *** Text read as a C string

    [GLOB] and [substr] get their text arguments from
    [sqlite3_value_text] and read them as zero-terminated strings: what
    follows the first NUL character is not seen. *)

Fixpoint cstr (s : string) : string :=
  match s with
  | EmptyString => EmptyString
  | String c s' =>
      if Str.eqb_ascii c zero then EmptyString else String c (cstr s')
  end.

(** *** [GLOB] *)

Inductive tok : Type :=
| TStar                                   (* [*] *)
| TOne                                    (* [?] *)
| TSet (invert lead : bool) (body : string)
    (* a bracket set: [invert] after [^]; [lead] when the first member is
       a literal closing bracket; [body] the members up to the closing
       bracket *)
| TChar (c : ascii).

Inductive lex_state : Type :=
| Outside
| AfterOpen
| AfterCaret
| InSet (invert lead : bool) (body_rev : string).

Fixpoint rev_onto (s acc : string) : string :=
  match s with
  | EmptyString => acc
  | String c s' => rev_onto s' (String c acc)
  end.

(** Splits a pattern into its elements; an unterminated bracket set gives
    [None]: such a pattern matches nothing. *)
Fixpoint lex (st : lex_state) (p : string) : option (list tok) :=
  match p with
  | EmptyString =>
      match st with Outside => Some [] | _ => None end
  | String c p' =>
      match st with
      | Outside =>
          if Str.eqb_ascii c "["%char then lex AfterOpen p'
          else
            let t := if Str.eqb_ascii c "*"%char then TStar
                     else if Str.eqb_ascii c "?"%char then TOne
                     else TChar c in
            match lex Outside p' with
            | Some ts => Some (t :: ts)
            | None => None
            end
      | AfterOpen =>
          if Str.eqb_ascii c "^"%char then lex AfterCaret p'
          else if Str.eqb_ascii c "]"%char then lex (InSet false true EmptyString) p'
          else lex (InSet false false (String c EmptyString)) p'
      | AfterCaret =>
          if Str.eqb_ascii c "]"%char then lex (InSet true true EmptyString) p'
          else lex (InSet true false (String c EmptyString)) p'
      | InSet invert lead body_rev =>
          if Str.eqb_ascii c "]"%char then
            match lex Outside p' with
            | Some ts => Some (TSet invert lead (rev_onto body_rev EmptyString) :: ts)
            | None => None
            end
          else lex (InSet invert lead (String c body_rev)) p'
      end
  end.

Definition ascii_leb (a b : ascii) : bool := (nat_of_ascii a <=? nat_of_ascii b)%nat.

(** The members of a bracket set: single characters and ranges [lo-hi];
    a [-] is a range only after a single member and before another
    character. *)
Fixpoint set_loop (c : ascii) (prior : option ascii) (body : string) : bool :=
  match body with
  | EmptyString => false
  | String c2 rest =>
      match Str.eqb_ascii c2 "-"%char, rest, prior with
      | true, String hi rest', Some lo =>
          (ascii_leb lo c && ascii_leb c hi) || set_loop c None rest'
      | _, _, _ => Str.eqb_ascii c c2 || set_loop c (Some c2) rest
      end
  end.

Definition set_match (c : ascii) (invert lead : bool) (body : string) : bool :=
  xorb ((lead && Str.eqb_ascii c "]"%char) || set_loop c None body) invert.

Fixpoint match_toks (ts : list tok) : string -> bool :=
  match ts with
  | [] => Str.is_empty
  | TStar :: ts' =>
      fix star (s : string) : bool :=
        match_toks ts' s
        || match s with
           | EmptyString => false
           | String _ s' => star s'
           end
  | TOne :: ts' =>
      fun s => match s with
               | EmptyString => false
               | String _ s' => match_toks ts' s'
               end
  | TSet invert lead body :: ts' =>
      fun s => match s with
               | EmptyString => false
               | String c s' => set_match c invert lead body && match_toks ts' s'
               end
  | TChar c :: ts' =>
      fun s => match s with
               | EmptyString => false
               | String d s' => Str.eqb_ascii c d && match_toks ts' s'
               end
  end.

(** [patternCompare] with the [GLOB] wildcards, on C strings *)
Definition patternCompare (pattern x : string) : bool :=
  match lex Outside pattern with
  | Some ts => match_toks ts x
  | None => false
  end.

(** [x GLOB pattern] *)
Definition glob (pattern x : string) : bool :=
  patternCompare (cstr pattern) (cstr x).

(** [substr(x, y)] with no length and [y >= 1]: from the [y]-th character
    to the end of the C string. *)
Definition substr (x : string) (y : nat) : string := Str.drop (y - 1) (cstr x).

(** *** The table and its constraints *)

Definition id_taken (i : string) (t : Table) : bool :=
  existsb (fun r => String.eqb (row_id r) i) t.

Definition path_taken (p : string) (t : Table) : bool :=
  existsb (fun r => String.eqb (row_path r) p) t.

(** [INSERT INTO Files (id, path) VALUES (?,?)]: [None] is the
    [IntegrityError] of a failed [PRIMARY KEY] or [UNIQUE] check. *)
Definition insert_row (r : Row) (t : Table) : option Table :=
  if id_taken (row_id r) t || path_taken (row_path r) t then None
  else Some (t ++ [r])%list.

(** The rows of an [INSERT ... SELECT], inserted one after the other; a
    failed check aborts the statement and nothing of it is kept. *)
Fixpoint insert_rows (rs : list Row) (t : Table) : option Table :=
  match rs with
  | [] => Some t
  | r :: rs' =>
      match insert_row r t with
      | Some t' => insert_rows rs' t'
      | None => None
      end
  end.

(** The rows as the [SELECT] of [INSERT ... SELECT] reads them: through
    the index on [path], that is in the order of the paths (rows of equal
    path, which [UNIQUE] excludes, would come in rowid order). *)
Fixpoint index_insert (r : Row) (t : Table) : Table :=
  match t with
  | [] => [r]
  | x :: t' =>
      if String.leb (row_path r) (row_path x) then r :: t
      else x :: index_insert r t'
  end.

Definition index_scan (t : Table) : Table := fold_right index_insert [] t.

(** [SELECT id FROM Files WHERE path = ?], [fetchone()] *)
Definition select_id (p : string) (t : Table) : option string :=
  match find (fun r => String.eqb (row_path r) p) t with
  | Some r => Some (row_id r)
  | None => None
  end.

(** [SELECT path FROM Files WHERE id = ?], [fetchone()] *)
Definition select_path (i : string) (t : Table) : option string :=
  match find (fun r => String.eqb (row_id r) i) t with
  | Some r => Some (row_path r)
  | None => None
  end.

(** [UPDATE Files SET path = f(row) WHERE sel(row)]: the rows are visited
    in order and [UNIQUE(path)] is checked at each row against the table
    as it stands then ([done] already rewritten, [todo] not yet); a failed
    check aborts the statement. *)
Fixpoint update_from (sel : Row -> bool) (f : Row -> string)
    (done todo : list Row) : option Table :=
  match todo with
  | [] => Some done
  | r :: rest =>
      if sel r then
        if path_taken (f r) (done ++ rest)%list then None
        else update_from sel f (done ++ [mkRow (row_id r) (f r)])%list rest
      else update_from sel f (done ++ [r])%list rest
  end.

Definition update_path (sel : Row -> bool) (f : Row -> string) (t : Table)
    : option Table :=
  update_from sel f [] t.

(** [DELETE FROM Files WHERE sel(row)] *)
Definition delete_where (sel : Row -> bool) (t : Table) : Table :=
  filter (fun r => negb (sel r)) t.

End Sqlite.

(** ** [FileIdManager] *)

Module FileIdManager.

Import Sqlite.

(** The exceptions the methods raise: [ValueError] from [uuid.UUID] and
    from [insert] (the spec's InvalidIdentifier), [sqlite3.IntegrityError]
    from a failed uniqueness check (the spec's DuplicatePath). *)
Inductive exn : Type := ValueError | IntegrityError.

(** [self.con] together with the host's entropy: [rows] is the table as
    the connection sees it, [committed] the table as of the last
    [commit()], [entropy k] the sixteen bytes of the [k]-th call of
    [os.urandom(16)] and [drawn] the number of calls made. *)
Record Connection : Type := mkCon {
  rows : Table;
  committed : Table;
  entropy : nat -> N;
  drawn : nat
}.

Definition set_rows (t : Table) (c : Connection) : Connection :=
  mkCon t (committed c) (entropy c) (drawn c).

Inductive result (A : Type) : Type :=
| Ok (a : A) (c : Connection)
| Raise (e : exn) (c : Connection).
Arguments Ok {A} a c.
Arguments Raise {A} e c.

Definition M (A : Type) : Type := Connection -> result A.

Definition ret {A} (a : A) : M A := fun c => Ok a c.
Definition raise {A} (e : exn) : M A := fun c => Raise e c.
Definition bind {A B} (m : M A) (k : A -> M B) : M B :=
  fun c => match m c with
           | Ok a c' => k a c'
           | Raise e c' => Raise e c'
           end.

Notation "x <- m ;; k" := (bind m (fun x => k))
  (at level 61, m at next level, right associativity).
Notation "m ;;; k" := (bind m (fun _ => k))
  (at level 61, right associativity).

Definition conn_of {A} (r : result A) : Connection :=
  match r with Ok _ c => c | Raise _ c => c end.

(** [uuid.uuid4()] *)
Definition uuid4 : M N :=
  fun c => Ok (Uuid.uuid4_of_random (entropy c (drawn c)))
              (mkCon (rows c) (committed c) (entropy c) (S (drawn c))).

(** [new_uuid()], the function registered with SQLite:
    [uuid.uuid4().hex] *)
Definition new_uuid : M string :=
  fid <- uuid4 ;;
  ret (Uuid.hex fid).

(** [self.con.commit()] *)
Definition commit : M unit :=
  fun c => Ok tt (mkCon (rows c) (rows c) (entropy c) (drawn c)).

(** [self.con.execute] of a statement that changes the table *)
Definition execute (stmt : Table -> option Table) : M unit :=
  fun c => match stmt (rows c) with
           | Some t => Ok tt (set_rows t c)
           | None => Raise IntegrityError c
           end.

(** [self.con.execute(...).fetchone()] of a query *)
Definition fetchone {A} (query : Table -> option A) : M (option A) :=
  fun c => Ok (query (rows c)) c.

Definition _normalize_path (path : string) : string :=
  PosixPath.normpath (PosixPath.normcase path).

Definition _insert (fid_hex path : string) : M unit :=
  execute (insert_row (mkRow fid_hex path)).

Definition get_id (path : string) : M (option string) :=
  let path := _normalize_path path in
  row <- fetchone (select_id path) ;;
  match row with
  | Some i =>
      match Uuid.of_string i with
      | Some u => ret (Some (Uuid.str u))
      | None => raise ValueError
      end
  | None => ret None
  end.

Definition get_path (fid : string) : M (option string) :=
  match Uuid.of_string fid with
  | Some u => fetchone (select_path (Uuid.hex u))
  | None => raise ValueError
  end.

Definition _index (path : string) : M string :=
  fid <- uuid4 ;;
  _insert (Uuid.hex fid) path ;;;
  ret (Uuid.str fid).

Definition index (path : string) : M string :=
  let path := _normalize_path path in
  existing_id <- get_id path ;;
  match existing_id with
  | Some i => ret i
  | None =>
      fid_str <- _index path ;;
      commit ;;;
      ret fid_str
  end.

(** The [fid] argument of [insert], of type [Union[str, uuid.UUID, None]]:
    [None], a [str] or a [uuid.UUID].  (For a value of any other type the
    method raises [ValueError("id must be a valid UUID")]; the type leaves
    such values out.) *)
Inductive fid_arg : Type :=
| FidNone
| FidStr (s : string)
| FidUUID (u : Uuid.UUID).

(** [not fid] *)
Definition falsy (fid : fid_arg) : bool :=
  match fid with
  | FidNone => true
  | FidStr s => Str.is_empty s
  | FidUUID _ => false
  end.

Definition insert (path : string) (fid : fid_arg) : M string :=
  let path := _normalize_path path in
  fid <- (if falsy fid then uuid4
          else match fid with
               | FidStr s =>
                   match Uuid.of_string s with
                   | Some u => ret u
                   | None => raise ValueError
                   end
               | FidUUID u => ret (Uuid.int u)
               | FidNone => uuid4
               end) ;;
  _insert (Uuid.hex fid) path ;;;
  commit ;;;
  ret (Uuid.str fid).

(** the rewritten path of a row under [old_path]:
    [? || substr(path, ?)] with [(new_path, len(old_path) + 1)] *)
Definition rebase (old_path new_path : string) (r : Row) : string :=
  new_path ++ substr (row_path r) (String.length old_path + 1).

(** [WHERE path GLOB ?] with [os.path.join(path, "*")] *)
Definition under (path : string) (r : Row) : bool :=
  glob (PosixPath.join path "*") (row_path r).

Definition move (old_path new_path : string) (recursive : bool) : M string :=
  let old_path := _normalize_path old_path in
  let new_path := _normalize_path new_path in
  (if recursive
   then execute (update_path (under old_path) (rebase old_path new_path))
   else ret tt) ;;;
  fid <- get_id old_path ;;
  fid <- match fid with
         | None =>
             fid_uuid <- uuid4 ;;
             _insert (Uuid.hex fid_uuid) new_path ;;;
             ret (Uuid.str fid_uuid)
         | Some fid =>
             match Uuid.of_string fid with
             | Some u =>
                 execute (update_path
                            (fun r => String.eqb (row_id r) (Uuid.hex u))
                            (fun _ => new_path)) ;;;
                 ret fid
             | None => raise ValueError
             end
         end ;;
  commit ;;;
  ret fid.

(** the rows of [SELECT new_uuid(), ... FROM Files WHERE ...]: one call of
    [new_uuid()] for each selected row, in the order they are read *)
Fixpoint new_uuid_rows (paths : list string) : M (list Row) :=
  match paths with
  | [] => ret []
  | p :: ps =>
      u <- uuid4 ;;
      rs <- new_uuid_rows ps ;;
      ret (mkRow (Uuid.hex u) p :: rs)
  end.

Definition copy (from_path to_path : string) (recursive : bool) : M string :=
  let from_path := _normalize_path from_path in
  let to_path := _normalize_path to_path in
  (if recursive
   then
     fun c =>
       (rs <- new_uuid_rows
                (map (rebase from_path to_path)
                     (filter (under from_path) (index_scan (rows c)))) ;;
        execute (insert_rows rs)) c
   else ret tt) ;;;
  index from_path ;;;
  r <- _index to_path ;;
  commit ;;;
  ret r.

Definition delete (path : string) (recursive : bool) : M unit :=
  let path := _normalize_path path in
  (if recursive
   then execute (fun t => Some (delete_where (under path) t))
   else ret tt) ;;;
  execute (fun t => Some (delete_where
                            (fun r => String.eqb (row_path r) path) t)) ;;;
  commit.

End FileIdManager.

(** ** Vocabulary of the properties *)

Module Spec.

Import Sqlite FileIdManager.

(** a lower-case hexadecimal digit, as [UUID.hex] writes them *)
Definition lower_hex (c : ascii) : bool := Str.mem c "0123456789abcdef".

(** the characters of [str(UUID)] *)
Definition hex_or_dash (c : ascii) : bool := Str.mem c "0123456789abcdef-".

(** the number a string of hexadecimal digits denotes, continuing [acc] *)
Fixpoint hex_value (acc : N) (s : string) : N :=
  match s with
  | EmptyString => acc
  | String c s' =>
      match Uuid.digit_value c with
      | Some d => hex_value (acc * 16 + d) s'
      | None => acc
      end
  end.

(** no [GLOB] metacharacter occurs in the string *)
Definition glob_free (p : string) : bool :=
  Str.forallb (fun c => negb (Str.mem c "*?[")) p.

(** no NUL character occurs in the string *)
Definition nul_free (p : string) : bool :=
  Str.forallb (fun c => negb (Str.eqb_ascii c zero)) p.

(** the literal text [os.path.join(path, "*")] puts before the star *)
Definition dir_prefix (path : string) : string :=
  if Str.is_empty path || Str.endswith_char PosixPath.sep path then path
  else path ++ "/".

(** the pattern elements of a string without metacharacters *)
Fixpoint chars (p : string) : list tok :=
  match p with
  | EmptyString => []
  | String c p' => TChar c :: chars p'
  end.

(** what [UPDATE ... SET path = f(row) WHERE sel(row)] leaves of a row *)
Definition updated (sel : Row -> bool) (f : Row -> string) (r : Row) : Row :=
  if sel r then mkRow (row_id r) (f r) else r.

(** [PRIMARY KEY(id)] and [UNIQUE(path)] *)
Definition one_record_per_id (t : Table) : Prop := NoDup (map row_id t).
Definition one_record_per_path (t : Table) : Prop := NoDup (map row_path t).
Definition consistent (t : Table) : Prop :=
  one_record_per_id t /\ one_record_per_path t.

(** the identifier column holds what [UUID.hex] writes *)
Definition canonical_id (i : string) : bool :=
  match Uuid.of_string i with
  | Some u => String.eqb (Uuid.hex u) i
  | None => false
  end.

Definition ids_ok (t : Table) : Prop :=
  Forall (fun r => canonical_id (row_id r) = true) t.

(** *** Normal forms of [normpath] *)

Definition sep_free (comp : string) : bool :=
  Str.forallb (fun x => negb (Str.eqb_ascii PosixPath.sep x)) comp.

Definition is_dotdot (comp : string) : bool := String.eqb comp "..".

(** a component [normpath] keeps: not empty, not [.], without separator *)
Definition clean_comp (comp : string) : bool :=
  negb (String.eqb comp "") && negb (String.eqb comp ".") && sep_free comp.

(** in a stack of components (last first), every [..] sits below all the
    other components *)
Fixpoint dotdots_at_bottom (st : list string) : bool :=
  match st with
  | [] => true
  | comp :: rest =>
      if is_dotdot comp then forallb is_dotdot rest else dotdots_at_bottom rest
  end.

(** the stacks the loop of [normpath] builds: relative paths keep leading
    [..] components, rooted paths none *)
Definition normal_stack (initial_slashes : nat) (st : list string) : bool :=
  forallb clean_comp st
  && (if Nat.eqb initial_slashes 0 then dotdots_at_bottom st
      else forallb (fun comp => negb (is_dotdot comp)) st).

(** *** Connections used in the examples *)

(** a host whose [k]-th draw of random bytes is the number [k] *)
Definition counting_entropy (k : nat) : N := N.of_nat k.

(** a freshly created database *)
Definition fresh_con : Connection := mkCon [] [] counting_entropy 0.

(** a committed database with the given rows *)
Definition con_of_rows (t : Table) : Connection := mkCon t t counting_entropy 0.

(** the identifier the next [uuid4()] of a connection will be *)
Definition next_uuid (c : Connection) : N :=
  Uuid.uuid4_of_random (entropy c (drawn c)).

(** the connection after one more draw of random bytes *)
Definition after_draw (c : Connection) : Connection :=
  mkCon (rows c) (committed c) (entropy c) (S (drawn c)).

(** the identifier argument of [insert] is absent or can be read *)
Definition readable (fid : fid_arg) : bool :=
  match fid with
  | FidNone => true
  | FidStr s => Str.is_empty s || match Uuid.of_string s with
                                  | Some _ => true
                                  | None => false
                                  end
  | FidUUID _ => true
  end.

(** the connection [_index] leaves when the row goes in *)
Definition indexed (path : string) (c : Connection) : Connection :=
  mkCon (rows c ++ [mkRow (Uuid.hex (next_uuid c)) path])%list (committed c)
        (entropy c) (S (drawn c)).

(** [x] lies strictly under the directory [path]: it starts with [path]
    and a separator (for a [path] that ends with the separator, the root,
    with [path] itself) *)
Definition lies_under (path x : string) : bool :=
  Str.startswith (dir_prefix path) x.

(** the connection [delete] leaves *)
Definition deleted (path : string) (recursive : bool) (c : Connection)
    : Connection :=
  let t := if recursive then delete_where (under path) (rows c) else rows c in
  let t := delete_where (fun r => String.eqb (row_path r) path) t in
  mkCon t t (entropy c) (drawn c).

(** the first statement of [move], on normalized paths: the subtree
    rewrite when [recursive], nothing otherwise *)
Definition rewrite_subtree (old_path new_path : string) (recursive : bool)
    : M unit :=
  if recursive
  then execute (update_path (under old_path) (rebase old_path new_path))
  else ret tt.

(** the connection after [commit()] *)
Definition committed_now (c : Connection) : Connection :=
  mkCon (rows c) (rows c) (entropy c) (drawn c).

(** [UPDATE Files SET path = new_path WHERE id = i], row by row *)
Definition renamed (i new_path : string) (r : Row) : Row :=
  updated (fun x => String.eqb (row_id x) i) (fun _ => new_path) r.

(** *** The public operations as one type *)

Inductive call : Type :=
| CallIndex (path : string)
| CallInsert (path : string) (fid : fid_arg)
| CallGetId (path : string)
| CallGetPath (fid : string)
| CallMove (old_path new_path : string) (recursive : bool)
| CallCopy (from_path to_path : string) (recursive : bool)
| CallDelete (path : string) (recursive : bool).

(** the connection a call leaves, whether it returns or raises *)
Definition run (k : call) (c : Connection) : Connection :=
  match k with
  | CallIndex path => conn_of (index path c)
  | CallInsert path fid => conn_of (insert path fid c)
  | CallGetId path => conn_of (get_id path c)
  | CallGetPath fid => conn_of (get_path fid c)
  | CallMove old_path new_path recursive =>
      conn_of (move old_path new_path recursive c)
  | CallCopy from_path to_path recursive =>
      conn_of (copy from_path to_path recursive c)
  | CallDelete path recursive => conn_of (delete path recursive c)
  end.

(** a property of tables holds of a connection when it holds of the
    table the connection sees and of the committed table *)
Definition holds (P : Table -> Prop) (c : Connection) : Prop :=
  P (rows c) /\ P (committed c).

(** both tables satisfy the two uniqueness constraints *)
Definition good (c : Connection) : Prop := holds consistent c.

(** [triple P m Q]: from a connection where [P] holds, [m] returns a value
    that satisfies [Q] or raises, and [P] holds of the connection it
    leaves in either case *)
Definition triple (P : Table -> Prop) {A} (m : M A) (Q : A -> Prop) : Prop :=
  forall c, holds P c ->
    match m c with
    | Ok a c' => Q a /\ holds P c'
    | Raise _ c' => holds P c'
    end.

(** the postcondition that asks nothing of the value *)
Definition anything {A} : A -> Prop := fun _ => True.

(** the rows of an [INSERT ... SELECT new_uuid(), ...] carry identifiers
    that [UUID.hex] wrote *)
Definition hex_ids (rs : list Row) : Prop :=
  Forall (fun r => exists u, (u < Uuid.bits128)%N /\ row_id r = Uuid.hex u) rs.

(** the connections a manager can be in: a database just created, and
    what the public operations make of it *)
Inductive reachable : Connection -> Prop :=
| reachable_created (e : nat -> N) : reachable (mkCon [] [] e 0)
| reachable_run (k : call) (c : Connection) :
    reachable c -> reachable (run k c).

(** identifiers and paths of the records correspond one to one *)
Definition record_bijection (t : Table) : Prop :=
  forall r r', In r t -> In r' t ->
    (row_id r = row_id r' <-> row_path r = row_path r').


(** the records that lie under [path] *)
Definition descendants (path : string) (t : Table) : Table :=
  filter (fun r => lies_under path (row_path r)) t.

(** what the subtree rewrite of [move] makes of a row, when [old_path]
    has no metacharacter and no NUL: the tail of the path is kept up to
    its first NUL *)
Definition rebased (old_path new_path : string) (r : Row) : Row :=
  if lies_under old_path (row_path r)
  then mkRow (row_id r)
             (new_path ++ Str.drop (String.length old_path) (cstr (row_path r)))
  else r.

(** the identifier of the [k]-th [uuid4()] from now on *)
Definition draw_id (c : Connection) (k : nat) : string :=
  Uuid.hex (Uuid.uuid4_of_random (entropy c (drawn c + k))).

(** the rows [new_uuid_rows] builds, drawing from the [k]-th bytes on *)
Fixpoint drawn_rows (e : nat -> N) (k : nat) (paths : list string) : list Row :=
  match paths with
  | [] => []
  | p :: ps => mkRow (Uuid.hex (Uuid.uuid4_of_random (e k))) p :: drawn_rows e (S k) ps
  end.


End Spec.

(** * Properties *)

(** ** Strings *)

Module StrFacts.
Import Str.

Lemma eqb_ascii_true (a b : ascii) : eqb_ascii a b = true <-> a = b.
Proof. unfold eqb_ascii. apply Ascii.eqb_eq. Qed.

Lemma eqb_ascii_refl (a : ascii) : eqb_ascii a a = true.
Proof. apply eqb_ascii_true. reflexivity. Qed.

Lemma eqb_ascii_false (a b : ascii) : eqb_ascii a b = false <-> a <> b.
Proof. unfold eqb_ascii. apply Ascii.eqb_neq. Qed.

Lemma append_nil_r (s : string) : s ++ "" = s.
Proof. induction s as [|c s IH]; simpl; [reflexivity | now rewrite IH]. Qed.

Lemma append_assoc (a b c : string) : (a ++ b) ++ c = a ++ (b ++ c).
Proof. induction a as [|x a IH]; simpl; [reflexivity | now rewrite IH]. Qed.

Lemma length_append (a b : string) :
  String.length (a ++ b) = String.length a + String.length b.
Proof. induction a as [|x a IH]; simpl; [reflexivity | now rewrite IH]. Qed.

Lemma forallb_append (f : ascii -> bool) (a b : string) :
  forallb f (a ++ b) = forallb f a && forallb f b.
Proof.
  induction a as [|x a IH]; simpl; [reflexivity |].
  rewrite IH. now rewrite andb_assoc.
Qed.

Lemma forallb_impl (f g : ascii -> bool) (s : string) :
  (forall c, f c = true -> g c = true) ->
  forallb f s = true -> forallb g s = true.
Proof.
  intros Hfg. induction s as [|c s IH]; simpl; [reflexivity |].
  intros H. apply andb_true_iff in H as [Hc Hs].
  rewrite (Hfg _ Hc), (IH Hs). reflexivity.
Qed.

Lemma forallb_take (f : ascii -> bool) (n : nat) (s : string) :
  forallb f s = true -> forallb f (take n s) = true.
Proof.
  revert s. induction n as [|n IH]; intros [|c s]; simpl; try reflexivity.
  intros H. apply andb_true_iff in H as [Hc Hs].
  now rewrite Hc, (IH _ Hs).
Qed.

Lemma forallb_drop (f : ascii -> bool) (n : nat) (s : string) :
  forallb f s = true -> forallb f (drop n s) = true.
Proof.
  revert s. induction n as [|n IH]; intros [|c s]; simpl; try tauto.
  intros H. apply andb_true_iff in H as [_ Hs]. now apply IH.
Qed.

Lemma take_drop (n : nat) (s : string) : take n s ++ drop n s = s.
Proof.
  revert s. induction n as [|n IH]; intros [|c s]; simpl; try reflexivity.
  now rewrite IH.
Qed.

Lemma drop_drop (n m : nat) (s : string) : drop m (drop n s) = drop (n + m) s.
Proof.
  revert s. induction n as [|n IH]; intros s; simpl; [reflexivity |].
  destruct s as [|c s]; [now destruct m | apply IH].
Qed.

Lemma drop_append (a b : string) : drop (String.length a) (a ++ b) = b.
Proof. induction a as [|x a IH]; simpl; [reflexivity | exact IH]. Qed.

Lemma startswith_append (p s : string) : startswith p (p ++ s) = true.
Proof.
  induction p as [|a p IH]; simpl; [reflexivity |].
  now rewrite eqb_ascii_refl, IH.
Qed.

Lemma startswith_inv (p s : string) :
  startswith p s = true -> exists t, s = p ++ t.
Proof.
  revert s. induction p as [|a p IH]; intros s H; simpl in *.
  - now exists s.
  - destruct s as [|b s]; [discriminate |].
    apply andb_true_iff in H as [Hab Hs].
    apply eqb_ascii_true in Hab. subst b.
    destruct (IH _ Hs) as [t ->]. now exists t.
Qed.

(** characters outside [chars] are not stripped *)
Lemma lstrip_id (chars s : string) :
  forallb (fun c => negb (mem c chars)) s = true -> lstrip chars s = s.
Proof.
  destruct s as [|c s]; simpl; [reflexivity |].
  intros H. apply andb_true_iff in H as [Hc _].
  apply negb_true_iff in Hc. now rewrite Hc.
Qed.

Lemma rstrip_id (chars s : string) :
  forallb (fun c => negb (mem c chars)) s = true -> rstrip chars s = s.
Proof.
  induction s as [|c s IH]; simpl; [reflexivity |].
  intros H. apply andb_true_iff in H as [Hc Hs].
  apply negb_true_iff in Hc. rewrite (IH Hs), Hc.
  now rewrite andb_false_r.
Qed.

Lemma strip_id (chars s : string) :
  forallb (fun c => negb (mem c chars)) s = true -> strip chars s = s.
Proof.
  intros H. unfold strip. rewrite (lstrip_id _ _ H). now apply rstrip_id.
Qed.

Lemma remove_char_id (c : ascii) (s : string) :
  forallb (fun d => negb (eqb_ascii c d)) s = true -> remove_char c s = s.
Proof.
  induction s as [|d s IH]; simpl; [reflexivity |].
  intros H. apply andb_true_iff in H as [Hd Hs].
  apply negb_true_iff in Hd. now rewrite Hd, (IH Hs).
Qed.

Lemma remove_char_append (c : ascii) (a b : string) :
  remove_char c (a ++ b) = remove_char c a ++ remove_char c b.
Proof.
  induction a as [|d a IH]; simpl; [reflexivity |].
  destruct (eqb_ascii c d); simpl; now rewrite IH.
Qed.

(** a pattern whose first character does not occur is never found *)
Lemma remove_sub_id (a : ascii) (pat s : string) :
  forallb (fun d => negb (eqb_ascii a d)) s = true ->
  remove_sub (String a pat) s = s.
Proof.
  unfold remove_sub.
  induction s as [|d s IH]; simpl; [reflexivity |].
  intros H. apply andb_true_iff in H as [Hd Hs].
  apply negb_true_iff in Hd. rewrite Hd. simpl. now rewrite (IH Hs).
Qed.

End StrFacts.

(** ** UUIDs: [of_string] reads back what [hex] and [str] write *)

Module UuidFacts.
Import Str StrFacts Uuid Spec.

Local Open Scope N_scope.

Lemma lower_hex_cases (c : ascii) :
  lower_hex c = true ->
  exists d, d < 16 /\ c = hexdigit d /\ digit_value c = Some d.
Proof.
  unfold lower_hex. simpl. intros H.
  repeat (apply orb_true_iff in H as [H | H];
          [apply eqb_ascii_true in H; subst c;
           eexists; split; [| split; [| reflexivity]];
           [reflexivity | reflexivity] |]).
  discriminate.
Qed.

Lemma hexdigit_lower (d : N) : d < 16 -> lower_hex (hexdigit d) = true.
Proof.
  intros H.
  assert (Hc : d = 0 \/ d = 1 \/ d = 2 \/ d = 3 \/ d = 4 \/ d = 5 \/ d = 6 \/
               d = 7 \/ d = 8 \/ d = 9 \/ d = 10 \/ d = 11 \/ d = 12 \/
               d = 13 \/ d = 14 \/ d = 15) by lia.
  repeat (destruct Hc as [-> | Hc]; [reflexivity |]). subst d. reflexivity.
Qed.

Lemma digit_value_hexdigit (d : N) : d < 16 -> digit_value (hexdigit d) = Some d.
Proof.
  intros H.
  destruct (lower_hex_cases _ (hexdigit_lower d H)) as (e & He & Heq & Hv).
  rewrite Hv. f_equal.
  assert (Hc : d = 0 \/ d = 1 \/ d = 2 \/ d = 3 \/ d = 4 \/ d = 5 \/ d = 6 \/
               d = 7 \/ d = 8 \/ d = 9 \/ d = 10 \/ d = 11 \/ d = 12 \/
               d = 13 \/ d = 14 \/ d = 15) by lia.
  repeat (destruct Hc as [-> | Hc];
          [vm_compute in Hv; now injection Hv |]).
  subst d. vm_compute in Hv. now injection Hv.
Qed.

Lemma hex_digits_lower (k : nat) (n : N) : forallb lower_hex (hex_digits k n) = true.
Proof.
  revert n. induction k as [|k IH]; intros n; simpl; [reflexivity |].
  rewrite forallb_append, IH. simpl.
  rewrite hexdigit_lower; [reflexivity |].
  apply N.mod_lt. discriminate.
Qed.

Lemma hex_digits_length (k : nat) (n : N) : String.length (hex_digits k n) = k.
Proof.
  revert n. induction k as [|k IH]; intros n; simpl; [reflexivity |].
  rewrite length_append, IH. simpl. lia.
Qed.

Lemma hex_value_append (acc : N) (s : string) (c : ascii) (d : N) :
  forallb lower_hex s = true -> digit_value c = Some d ->
  hex_value acc (s ++ String c "") = hex_value acc s * 16 + d.
Proof.
  revert acc. induction s as [|x s IH]; intros acc Hs Hc; simpl.
  - now rewrite Hc.
  - simpl in Hs. apply andb_true_iff in Hs as [Hx Hs].
    destruct (lower_hex_cases _ Hx) as (e & _ & _ & ->).
    now apply IH.
Qed.

Lemma hex_value_hex_digits (k : nat) (acc n : N) :
  hex_value acc (hex_digits k n) = acc * 16 ^ N.of_nat k + n mod 16 ^ N.of_nat k.
Proof.
  revert n. induction k as [|k IH]; intros n.
  - simpl. rewrite N.mod_1_r. lia.
  - cbn [hex_digits].
    rewrite (hex_value_append _ _ _ (n mod 16)).
    + rewrite IH. rewrite Nnat.Nat2N.inj_succ, N.pow_succ_r'.
      rewrite (N.Div0.mod_mul_r n 16 (16 ^ N.of_nat k)). lia.
    + apply hex_digits_lower.
    + apply digit_value_hexdigit. apply N.mod_lt. discriminate.
Qed.

Lemma scan_lower_hex (seen : bool) (acc : N) (s : string) :
  forallb lower_hex s = true ->
  (seen = true \/ s <> EmptyString) ->
  scan_digits false seen acc s = Some (hex_value acc s).
Proof.
  revert seen acc. induction s as [|c s IH]; intros seen acc Hs Hne.
  - destruct Hne as [-> | Hne]; [reflexivity | contradiction].
  - simpl in Hs. apply andb_true_iff in Hs as [Hc Hs].
    destruct (lower_hex_cases _ Hc) as (d & Hd & Hch & Hv).
    cbn [scan_digits hex_value]. rewrite Hv.
    assert (Hu : eqb_ascii c underscore = false).
    { apply eqb_ascii_false. intros ->. discriminate. }
    rewrite Hu. apply N.ltb_lt in Hd. rewrite Hd.
    apply IH; [exact Hs | now left].
Qed.

Ltac hex_cases H :=
  unfold lower_hex in H; simpl in H;
  repeat (apply orb_true_iff in H as [H | H];
          [apply eqb_ascii_true in H; subst |]);
  [.. | discriminate H].

Lemma lower_hex_not_space (c : ascii) :
  lower_hex c = true -> negb (mem c whitespace) = true.
Proof. intros H. hex_cases H; reflexivity. Qed.

Lemma lower_hex_is_hex_or_dash (c : ascii) :
  lower_hex c = true -> hex_or_dash c = true.
Proof. intros H. hex_cases H; reflexivity. Qed.

Lemma hex_or_dash_not_u (c : ascii) :
  hex_or_dash c = true -> negb (eqb_ascii "u" c) = true.
Proof.
  unfold hex_or_dash. simpl. intros H.
  repeat (apply orb_true_iff in H as [H | H];
          [apply eqb_ascii_true in H; subst; reflexivity |]).
  discriminate.
Qed.

Lemma hex_or_dash_not_brace (c : ascii) :
  hex_or_dash c = true -> negb (mem c "{}") = true.
Proof.
  unfold hex_or_dash. simpl. intros H.
  repeat (apply orb_true_iff in H as [H | H];
          [apply eqb_ascii_true in H; subst; reflexivity |]).
  discriminate.
Qed.

(** neither [urn:] nor [uuid:] nor a brace occurs among hexadecimal
    digits and hyphens *)
Lemma of_string_prefixes (s : string) :
  forallb hex_or_dash s = true ->
  strip "{}" (remove_sub "uuid:" (remove_sub "urn:" s)) = s.
Proof.
  intros Hs.
  rewrite (remove_sub_id "u" "rn:" s)
    by (eapply forallb_impl; [apply hex_or_dash_not_u | exact Hs]).
  rewrite (remove_sub_id "u" "uid:" s)
    by (eapply forallb_impl; [apply hex_or_dash_not_u | exact Hs]).
  apply strip_id.
  eapply forallb_impl; [apply hex_or_dash_not_brace | exact Hs].
Qed.

Lemma lower_hex_not_dash (c : ascii) :
  lower_hex c = true -> negb (eqb_ascii "-" c) = true.
Proof. intros H. hex_cases H; reflexivity. Qed.

(** [int(s, 16)] on a non-empty string of lower-case hexadecimal digits *)
Lemma int16_lower_hex (s : string) :
  forallb lower_hex s = true -> s <> EmptyString ->
  int16 s = Some (hex_value 0 s, false).
Proof.
  intros Hs Hne. unfold int16.
  rewrite strip_id by (eapply forallb_impl; [apply lower_hex_not_space | exact Hs]).
  assert (Hsign : skip_sign s = (s, false)).
  { destruct s as [|c s]; [reflexivity |].
    simpl in Hs. apply andb_true_iff in Hs as [Hc _].
    hex_cases Hc; reflexivity. }
  rewrite Hsign.
  assert (Hpre : skip_prefix16 s = s).
  { destruct s as [|c s]; [reflexivity |].
    simpl in Hs. apply andb_true_iff in Hs as [Hc Hs].
    destruct s as [|c2 s]; [hex_cases Hc; reflexivity |].
    simpl in Hs. apply andb_true_iff in Hs as [Hc2 _].
    hex_cases Hc; try reflexivity.
    hex_cases Hc2; reflexivity. }
  rewrite Hpre.
  assert (Hus : startswith "_" s = false).
  { destruct s as [|c s]; [reflexivity |].
    simpl in Hs. apply andb_true_iff in Hs as [Hc _].
    hex_cases Hc; reflexivity. }
  rewrite Hus.
  rewrite scan_lower_hex; [reflexivity | exact Hs | now right].
Qed.

Lemma bits128_pow16 : bits128 = 16 ^ N.of_nat 32.
Proof. reflexivity. Qed.

(** the part of [of_string] after the removal of prefixes, braces and
    hyphens *)
Lemma of_string_core (u : N) :
  u < bits128 ->
  (if negb (String.length (hex u) =? 32)%nat then None
   else match int16 (hex u) with
        | Some (n, neg) =>
            if neg then (if n =? 0 then Some 0 else None)
            else if n <? bits128 then Some n else None
        | None => None
        end) = Some u.
Proof.
  intros Hu. unfold hex. rewrite hex_digits_length. simpl negb. cbv iota.
  rewrite int16_lower_hex.
  - rewrite hex_value_hex_digits, <- bits128_pow16.
    rewrite N.mod_small by exact Hu. simpl (0 * _ + _).
    apply N.ltb_lt in Hu. now rewrite Hu.
  - apply hex_digits_lower.
  - intros E. apply (f_equal String.length) in E.
    rewrite hex_digits_length in E. discriminate.
Qed.

Lemma of_string_hex (u : N) : u < bits128 -> of_string (hex u) = Some u.
Proof.
  intros Hu. unfold of_string.
  assert (Hh : forallb hex_or_dash (hex u) = true).
  { eapply forallb_impl; [apply lower_hex_is_hex_or_dash | apply hex_digits_lower]. }
  rewrite (of_string_prefixes _ Hh).
  rewrite remove_char_id
    by (eapply forallb_impl; [apply lower_hex_not_dash | apply hex_digits_lower]).
  now apply of_string_core.
Qed.

Lemma remove_dash_hex_part (t : string) :
  forallb lower_hex t = true -> remove_char "-" t = t.
Proof.
  intros H. apply remove_char_id.
  eapply forallb_impl; [apply lower_hex_not_dash | exact H].
Qed.

Lemma remove_dash_groups (h : string) :
  forallb lower_hex h = true ->
  remove_char "-"
    (take 8 h ++ "-" ++ take 4 (drop 8 h) ++ "-" ++ take 4 (drop 12 h) ++ "-" ++
     take 4 (drop 16 h) ++ "-" ++ drop 20 h) = h.
Proof.
  intros Hh.
  rewrite !remove_char_append.
  change (remove_char "-" "-") with EmptyString.
  cbn [append].
  rewrite !remove_dash_hex_part
    by (try apply forallb_take; try apply forallb_drop; exact Hh).
  replace (drop 20 h) with (drop 4 (drop 16 h)) by (now rewrite drop_drop).
  rewrite take_drop.
  replace (drop 16 h) with (drop 4 (drop 12 h)) by (now rewrite drop_drop).
  rewrite take_drop.
  replace (drop 12 h) with (drop 4 (drop 8 h)) by (now rewrite drop_drop).
  rewrite take_drop. apply take_drop.
Qed.

(** removing the hyphens of [str u] gives [hex u] back *)
Lemma remove_dash_str (u : N) : remove_char "-" (str u) = hex u.
Proof. unfold str. apply remove_dash_groups. apply hex_digits_lower. Qed.

Lemma hex_or_dash_groups (h : string) :
  forallb lower_hex h = true ->
  forallb hex_or_dash
    (take 8 h ++ "-" ++ take 4 (drop 8 h) ++ "-" ++ take 4 (drop 12 h) ++ "-" ++
     take 4 (drop 16 h) ++ "-" ++ drop 20 h) = true.
Proof.
  intros Hl.
  assert (Hh : forallb hex_or_dash h = true).
  { eapply forallb_impl; [apply lower_hex_is_hex_or_dash | exact Hl]. }
  rewrite !forallb_append.
  change (forallb hex_or_dash "-") with true.
  rewrite !forallb_take, !forallb_drop
    by (try apply forallb_drop; exact Hh).
  reflexivity.
Qed.

Lemma str_hex_or_dash (u : N) : forallb hex_or_dash (str u) = true.
Proof. unfold str. apply hex_or_dash_groups. apply hex_digits_lower. Qed.

Lemma of_string_str (u : N) : u < bits128 -> of_string (str u) = Some u.
Proof.
  intros Hu. unfold of_string.
  rewrite (of_string_prefixes _ (str_hex_or_dash u)).
  rewrite remove_dash_str. now apply of_string_core.
Qed.

Lemma of_string_range (s : string) (u : N) : of_string s = Some u -> u < bits128.
Proof.
  unfold of_string.
  destruct (negb _); [discriminate |].
  destruct (int16 _) as [[n neg] |]; [| discriminate].
  destruct neg.
  - destruct (n =? 0); [| discriminate]. intros [= <-]. reflexivity.
  - destruct (n <? bits128) eqn:E; [| discriminate].
    intros [= <-]. now apply N.ltb_lt.
Qed.

Lemma hex_inj (u v : N) : u < bits128 -> v < bits128 -> hex u = hex v -> u = v.
Proof.
  intros Hu Hv E. apply (f_equal of_string) in E.
  rewrite !of_string_hex in E by assumption. now injection E.
Qed.

Lemma str_inj (u v : N) : u < bits128 -> v < bits128 -> str u = str v -> u = v.
Proof.
  intros Hu Hv E. apply (f_equal of_string) in E.
  rewrite !of_string_str in E by assumption. now injection E.
Qed.

Lemma log2_lt_128 (a : N) : a < bits128 -> N.log2 a < 128.
Proof.
  intros H. destruct (N.eq_dec a 0) as [-> | Hne]; [reflexivity |].
  apply N.log2_lt_pow2; [lia | exact H].
Qed.

Lemma lor_lt_128 (a b : N) : a < bits128 -> b < bits128 -> N.lor a b < bits128.
Proof.
  intros Ha Hb.
  destruct (N.eq_dec (N.lor a b) 0) as [E | Hne]; [rewrite E; reflexivity |].
  apply N.log2_lt_pow2; [lia |].
  rewrite N.log2_lor. apply N.max_lub_lt; now apply log2_lt_128.
Qed.

(** a [uuid4] is a 128-bit value whatever the random bytes *)
Lemma uuid4_range (r : N) : uuid4_of_random r < bits128.
Proof.
  unfold uuid4_of_random.
  assert (H0 : r mod bits128 < bits128) by (apply N.mod_lt; discriminate).
  apply lor_lt_128; [| reflexivity].
  eapply N.le_lt_trans; [apply N.ldiff_le_l |].
  apply lor_lt_128; [| reflexivity].
  eapply N.le_lt_trans; [apply N.ldiff_le_l | exact H0].
Qed.

End UuidFacts.

(** ** [GLOB] with a literal prefix *)

Module GlobFacts.
Import Str StrFacts Sqlite Spec.

Lemma lex_literal (p q : string) :
  glob_free p = true ->
  lex Outside (p ++ q) = match lex Outside q with
                         | Some ts => Some (chars p ++ ts)%list
                         | None => None
                         end.
Proof.
  induction p as [|c p IH]; intros H.
  - simpl. now destruct (lex Outside q).
  - simpl in H. apply andb_true_iff in H as [Hc Hp].
    apply negb_true_iff in Hc. simpl in Hc.
    apply orb_false_iff in Hc as [H1 Hc].
    apply orb_false_iff in Hc as [H2 Hc].
    apply orb_false_iff in Hc as [H3 _].
    cbn [append lex]. rewrite H3, H1, H2, (IH Hp).
    now destruct (lex Outside q).
Qed.

Lemma match_star_all (s : string) : match_toks [TStar] s = true.
Proof.
  induction s as [|c s IH]; [reflexivity |].
  cbn [match_toks is_empty orb]. exact IH.
Qed.

Lemma match_chars (p : string) (ts : list tok) (x : string) :
  match_toks (chars p ++ ts) x
  = startswith p x && match_toks ts (drop (String.length p) x).
Proof.
  revert x. induction p as [|c p IH]; intros x; [reflexivity |].
  destruct x as [|d x]; [reflexivity |].
  cbn [chars app match_toks startswith String.length drop].
  rewrite IH. now rewrite andb_assoc.
Qed.

(** *** C strings *)

Lemma cstr_nul_free (s : string) : nul_free s = true -> cstr s = s.
Proof.
  induction s as [|c s IH]; [reflexivity |].
  cbn [nul_free forallb cstr]. intros H. apply andb_true_iff in H as [Hc Hs].
  apply negb_true_iff in Hc. rewrite Hc. f_equal. now apply IH.
Qed.

Lemma cstr_append (p s : string) :
  nul_free p = true -> cstr (p ++ s) = p ++ cstr s.
Proof.
  induction p as [|c p IH]; [reflexivity |].
  cbn [nul_free forallb append cstr]. intros H.
  apply andb_true_iff in H as [Hc Hp].
  apply negb_true_iff in Hc. rewrite Hc. f_equal. now apply IH.
Qed.


Lemma nul_free_cstr (s : string) : nul_free (cstr s) = true.
Proof.
  induction s as [|c s IH]; [reflexivity |].
  cbn [cstr]. destruct (eqb_ascii c zero) eqn:E; [reflexivity |].
  cbn [nul_free forallb]. rewrite E. exact IH.
Qed.

Lemma nul_free_append (a b : string) :
  nul_free (a ++ b) = nul_free a && nul_free b.
Proof. apply forallb_append. Qed.



Lemma startswith_cstr (p x : string) :
  nul_free p = true -> startswith p (cstr x) = startswith p x.
Proof.
  revert x. induction p as [|a p IH]; intros x H; [reflexivity |].
  cbn [nul_free forallb] in H. apply andb_true_iff in H as [Ha Hp].
  apply negb_true_iff in Ha.
  destruct x as [|b x]; [reflexivity |].
  cbn [cstr]. destruct (eqb_ascii b zero) eqn:Eb.
  - cbn [startswith]. apply eqb_ascii_true in Eb. subst b. now rewrite Ha.
  - cbn [startswith]. now rewrite (IH x Hp).
Qed.


(** *** Patterns with a literal prefix *)

(** [p*] matches what starts with [p], when [p] is free of
    metacharacters *)
Lemma patternCompare_literal_star (p x : string) :
  glob_free p = true -> patternCompare (p ++ "*") x = startswith p x.
Proof.
  intros H. unfold patternCompare. rewrite (lex_literal _ _ H).
  change (lex Outside "*") with (Some [TStar]). cbv beta iota.
  rewrite match_chars, match_star_all. apply andb_true_r.
Qed.


(** [x GLOB p*] is [x.startswith(p)] when [p] is free of metacharacters
    and of NUL *)
Lemma glob_literal_star (p x : string) :
  glob_free p = true -> nul_free p = true ->
  glob (p ++ "*") x = startswith p x.
Proof.
  intros H Hn. unfold glob. rewrite (cstr_append _ _ Hn).
  change (cstr "*") with "*".
  now rewrite (patternCompare_literal_star _ _ H), startswith_cstr.
Qed.


End GlobFacts.

(** ** The table: lookups, constraints and what statements preserve *)

Module TableFacts.
Import Sqlite Spec.
Local Open Scope list_scope.

Lemma path_taken_In (p : string) (t : Table) :
  path_taken p t = true <-> In p (map row_path t).
Proof.
  unfold path_taken. rewrite existsb_exists, in_map_iff. split.
  - intros (r & Hr & E). apply String.eqb_eq in E. now exists r.
  - intros (r & E & Hr). exists r. split; [exact Hr | now apply String.eqb_eq].
Qed.

Lemma id_taken_In (i : string) (t : Table) :
  id_taken i t = true <-> In i (map row_id t).
Proof.
  unfold id_taken. rewrite existsb_exists, in_map_iff. split.
  - intros (r & Hr & E). apply String.eqb_eq in E. now exists r.
  - intros (r & E & Hr). exists r. split; [exact Hr | now apply String.eqb_eq].
Qed.

Lemma path_taken_free (p : string) (t : Table) :
  path_taken p t = false <-> ~ In p (map row_path t).
Proof.
  rewrite <- path_taken_In. now destruct (path_taken p t).
Qed.

Lemma id_taken_free (i : string) (t : Table) :
  id_taken i t = false <-> ~ In i (map row_id t).
Proof.
  rewrite <- id_taken_In. now destruct (id_taken i t).
Qed.

Lemma select_id_none (p : string) (t : Table) :
  select_id p t = None <-> path_taken p t = false.
Proof.
  unfold select_id, path_taken.
  induction t as [|r t IH]; simpl; [tauto |].
  destruct (String.eqb (row_path r) p); simpl; [| exact IH].
  split; discriminate.
Qed.

Lemma select_id_some (p i : string) (t : Table) :
  select_id p t = Some i ->
  exists r, In r t /\ row_path r = p /\ row_id r = i.
Proof.
  unfold select_id.
  destruct (find _ t) as [r |] eqn:E; [| discriminate].
  intros [= <-]. apply find_some in E as [Hin Heq].
  apply String.eqb_eq in Heq. now exists r.
Qed.

Lemma select_path_some (i p : string) (t : Table) :
  select_path i t = Some p ->
  exists r, In r t /\ row_id r = i /\ row_path r = p.
Proof.
  unfold select_path.
  destruct (find _ t) as [r |] eqn:E; [| discriminate].
  intros [= <-]. apply find_some in E as [Hin Heq].
  apply String.eqb_eq in Heq. now exists r.
Qed.

Lemma select_path_none (i : string) (t : Table) :
  select_path i t = None <-> id_taken i t = false.
Proof.
  unfold select_path, id_taken.
  induction t as [|r t IH]; simpl; [tauto |].
  destruct (String.eqb (row_id r) i); simpl; [| exact IH].
  split; discriminate.
Qed.

(** with [UNIQUE(path)] the row found for a path is the row that has it *)
Lemma select_id_row (r : Row) (t : Table) :
  one_record_per_path t -> In r t -> select_id (row_path r) t = Some (row_id r).
Proof.
  unfold one_record_per_path, select_id.
  induction t as [|x t IH]; simpl; [tauto |].
  intros Hnd [-> | Hin].
  - now rewrite String.eqb_refl.
  - inversion Hnd as [| ? ? Hx Hnd']; subst.
    destruct (String.eqb (row_path x) (row_path r)) eqn:E; [| now apply IH].
    apply String.eqb_eq in E. exfalso. apply Hx. rewrite E.
    now apply in_map.
Qed.

Lemma select_path_row (r : Row) (t : Table) :
  one_record_per_id t -> In r t -> select_path (row_id r) t = Some (row_path r).
Proof.
  unfold one_record_per_id, select_path.
  induction t as [|x t IH]; simpl; [tauto |].
  intros Hnd [-> | Hin].
  - now rewrite String.eqb_refl.
  - inversion Hnd as [| ? ? Hx Hnd']; subst.
    destruct (String.eqb (row_id x) (row_id r)) eqn:E; [| now apply IH].
    apply String.eqb_eq in E. exfalso. apply Hx. rewrite E.
    now apply in_map.
Qed.

Lemma insert_row_some (r : Row) (t t' : Table) :
  insert_row r t = Some t' <->
  id_taken (row_id r) t = false /\ path_taken (row_path r) t = false
  /\ t' = t ++ [r].
Proof.
  unfold insert_row.
  destruct (id_taken _ t), (path_taken _ t); simpl; split;
    try discriminate; try (intros (? & ? & ?); discriminate).
  - intros [= <-]. auto.
  - intros (_ & _ & ->). reflexivity.
Qed.

Lemma insert_row_none (r : Row) (t : Table) :
  insert_row r t = None <->
  id_taken (row_id r) t = true \/ path_taken (row_path r) t = true.
Proof.
  unfold insert_row.
  destruct (id_taken _ t), (path_taken _ t); simpl; split;
    try discriminate; auto; intros [? | ?]; discriminate.
Qed.

Lemma NoDup_snoc {A} (l : list A) (x : A) :
  NoDup l -> ~ In x l -> NoDup (l ++ [x]).
Proof.
  intros Hl Hx. apply NoDup_app; [exact Hl | repeat constructor; simpl; tauto |].
  intros a Ha [<- | []]. now apply Hx.
Qed.

Lemma consistent_insert_row (r : Row) (t t' : Table) :
  consistent t -> insert_row r t = Some t' -> consistent t'.
Proof.
  intros [Hi Hp] H. apply insert_row_some in H as (Fi & Fp & ->).
  apply id_taken_free in Fi. apply path_taken_free in Fp.
  unfold consistent, one_record_per_id, one_record_per_path in *.
  rewrite !map_app. simpl. split; now apply NoDup_snoc.
Qed.

Lemma consistent_insert_rows (rs : list Row) (t t' : Table) :
  consistent t -> insert_rows rs t = Some t' -> consistent t'.
Proof.
  revert t. induction rs as [|r rs IH]; intros t Ht; simpl.
  - now intros [= <-].
  - destruct (insert_row r t) as [t1 |] eqn:E; [| discriminate].
    apply IH. eapply consistent_insert_row; eauto.
Qed.


Lemma NoDup_middle {A} (l1 l2 : list A) (x : A) :
  NoDup (l1 ++ l2) -> ~ In x (l1 ++ l2) -> NoDup (l1 ++ x :: l2).
Proof.
  intros Hl Hx. eapply Permutation_NoDup; [apply Permutation_middle |].
  now constructor.
Qed.

Lemma updated_id (sel : Row -> bool) (f : Row -> string) (r : Row) :
  row_id (updated sel f r) = row_id r.
Proof. unfold updated. now destruct (sel r). Qed.

Lemma map_updated_ids (sel : Row -> bool) (f : Row -> string) (t : Table) :
  map row_id (map (updated sel f) t) = map row_id t.
Proof.
  rewrite map_map. apply map_ext. intros r. apply updated_id.
Qed.

(** a successful [UPDATE] rewrites exactly the selected rows, in place *)
Lemma update_from_result (sel : Row -> bool) (f : Row -> string)
    (done todo t' : Table) :
  update_from sel f done todo = Some t' ->
  t' = done ++ map (updated sel f) todo.
Proof.
  revert done. induction todo as [|r rest IH]; intros done; simpl.
  - intros [= <-]. now rewrite app_nil_r.
  - unfold updated at 1. destruct (sel r).
    + destruct (path_taken _ _); [discriminate |].
      intros H. apply IH in H. now rewrite <- app_assoc in H.
    + intros H. apply IH in H. now rewrite <- app_assoc in H.
Qed.

Lemma update_path_result (sel : Row -> bool) (f : Row -> string) (t t' : Table) :
  update_path sel f t = Some t' -> t' = map (updated sel f) t.
Proof. apply update_from_result. Qed.

Lemma update_from_paths (sel : Row -> bool) (f : Row -> string)
    (done todo t' : Table) :
  one_record_per_path (done ++ todo) ->
  update_from sel f done todo = Some t' ->
  one_record_per_path t'.
Proof.
  unfold one_record_per_path.
  revert done. induction todo as [|r rest IH]; intros done Hnd; simpl.
  - intros [= <-]. now rewrite app_nil_r in Hnd.
  - destruct (sel r).
    + destruct (path_taken _ _) eqn:E; [discriminate |].
      apply IH. rewrite <- app_assoc. simpl.
      rewrite map_app in *. simpl in *.
      apply path_taken_free in E. rewrite map_app in E.
      apply NoDup_middle; [now apply NoDup_remove_1 in Hnd | exact E].
    + apply IH. now rewrite <- app_assoc.
Qed.

Lemma consistent_update_path (sel : Row -> bool) (f : Row -> string)
    (t t' : Table) :
  consistent t -> update_path sel f t = Some t' -> consistent t'.
Proof.
  intros [Hi Hp] H. split.
  - apply update_path_result in H. subst t'.
    unfold one_record_per_id. now rewrite map_updated_ids.
  - eapply update_from_paths; [| exact H]. exact Hp.
Qed.

Lemma NoDup_map_filter {A B} (g : A -> B) (keep : A -> bool) (l : list A) :
  NoDup (map g l) -> NoDup (map g (filter keep l)).
Proof.
  induction l as [|a l IH]; simpl; [auto |].
  intros H. inversion H as [| ? ? Ha Hl]; subst.
  destruct (keep a); simpl; [| now apply IH].
  constructor; [| now apply IH].
  intros Hin. apply Ha. apply in_map_iff in Hin as (b & E & Hb).
  apply filter_In in Hb as [Hb _]. apply in_map_iff. now exists b.
Qed.

Lemma consistent_delete_where (sel : Row -> bool) (t : Table) :
  consistent t -> consistent (delete_where sel t).
Proof.
  intros [Hi Hp]. split; now apply NoDup_map_filter.
Qed.

(** an [UPDATE] that selects no row changes nothing *)
Lemma update_from_none_selected (sel : Row -> bool) (f : Row -> string)
    (done todo : Table) :
  (forall r, In r todo -> sel r = false) ->
  update_from sel f done todo = Some (done ++ todo).
Proof.
  revert done. induction todo as [|r rest IH]; intros done H; simpl.
  - now rewrite app_nil_r.
  - rewrite (H r) by now left.
    rewrite IH by (intros x Hx; apply H; now right).
    now rewrite <- app_assoc.
Qed.

(** [UPDATE Files SET path = p WHERE id = i] succeeds when no row has the
    path [p] yet *)
Lemma update_by_id_free (i p : string) (done todo : Table) :
  one_record_per_id todo ->
  path_taken p (done ++ todo) = false ->
  update_from (fun r => String.eqb (row_id r) i) (fun _ => p) done todo
  = Some (done ++ map (updated (fun r => String.eqb (row_id r) i) (fun _ => p)) todo).
Proof.
  unfold one_record_per_id.
  revert done. induction todo as [|r rest IH]; intros done Hnd Hfree.
  - simpl. now rewrite app_nil_r.
  - cbn [update_from map]. unfold updated at 1.
    simpl in Hnd. inversion Hnd as [| ? ? Hr Hrest]; subst.
    destruct (String.eqb (row_id r) i) eqn:E.
    + apply String.eqb_eq in E.
      assert (Hfree' : path_taken p (done ++ rest) = false).
      { apply path_taken_free. apply path_taken_free in Hfree.
        intros Hin. apply Hfree. rewrite map_app in *. simpl.
        apply in_app_iff in Hin as [? | ?]; apply in_app_iff; simpl; auto. }
      rewrite Hfree'.
      rewrite update_from_none_selected.
      * rewrite <- app_assoc. simpl. do 3 f_equal.
        rewrite <- (map_id rest) at 1. apply map_ext_in.
        intros x Hx. unfold updated.
        destruct (String.eqb (row_id x) i) eqn:Ex; [| reflexivity].
        apply String.eqb_eq in Ex. exfalso. apply Hr.
        rewrite E, <- Ex. now apply in_map.
      * intros x Hx. apply String.eqb_neq. intros Ex. apply Hr.
        rewrite E, <- Ex. now apply in_map.
    + rewrite IH; [now rewrite <- app_assoc | exact Hrest |].
      now rewrite <- app_assoc.
Qed.

Lemma ids_ok_app (t1 t2 : Table) : ids_ok (t1 ++ t2) <-> ids_ok t1 /\ ids_ok t2.
Proof. unfold ids_ok. apply Forall_app. Qed.

Lemma ids_ok_updated (sel : Row -> bool) (f : Row -> string) (t : Table) :
  ids_ok t -> ids_ok (map (updated sel f) t).
Proof.
  unfold ids_ok. intros H. apply Forall_map.
  eapply Forall_impl; [| exact H]. intros r Hr. now rewrite updated_id.
Qed.

Lemma ids_ok_delete_where (sel : Row -> bool) (t : Table) :
  ids_ok t -> ids_ok (delete_where sel t).
Proof.
  unfold ids_ok, delete_where. intros H.
  apply Forall_forall. intros r Hr. apply filter_In in Hr as [Hr _].
  revert r Hr. now apply Forall_forall.
Qed.

(** *** Reading through the index on [path] *)

Lemma index_insert_perm (r : Row) (t : Table) :
  Permutation (index_insert r t) (r :: t).
Proof.
  induction t as [|x t IH]; [reflexivity |].
  cbn [index_insert]. destruct (String.leb _ _); [reflexivity |].
  rewrite IH. apply perm_swap.
Qed.

(** the index holds the rows of the table, each once *)
Lemma index_scan_perm (t : Table) : Permutation (index_scan t) t.
Proof.
  induction t as [|r t IH]; [reflexivity |].
  cbn [index_scan fold_right]. fold (index_scan t).
  rewrite index_insert_perm. now constructor.
Qed.

Lemma In_index_scan (r : Row) (t : Table) : In r (index_scan t) <-> In r t.
Proof.
  split; apply Permutation_in; [| symmetry]; apply index_scan_perm.
Qed.

Lemma filter_perm {A} (f : A -> bool) (l l' : list A) :
  Permutation l l' -> Permutation (filter f l) (filter f l').
Proof.
  induction 1 as [| x l l' _ IH | x y l | l l' l'' _ IH1 _ IH2].
  - constructor.
  - cbn. destruct (f x); [now constructor | exact IH].
  - cbn. destruct (f x), (f y); try reflexivity. apply perm_swap.
  - now transitivity (filter f l').
Qed.


Lemma length_filter_index_scan (f : Row -> bool) (t : Table) :
  length (filter f (index_scan t)) = length (filter f t).
Proof. apply Permutation_length, filter_perm, index_scan_perm. Qed.

End TableFacts.

(** ** [normpath] is idempotent *)

Module PathFacts.
Import Str StrFacts PosixPath Spec.
Local Open Scope list_scope.

Lemma split_nonempty (c : ascii) (s : string) : split c s <> [].
Proof.
  induction s as [|d s IH]; cbn [split]; [discriminate |].
  destruct (eqb_ascii c d); [discriminate |].
  destruct (split c s); [contradiction | discriminate].
Qed.

Lemma sep_free_cons (d : ascii) (p : string) :
  sep_free (String d p) = negb (eqb_ascii sep d) && sep_free p.
Proof. reflexivity. Qed.

Lemma split_sep_free (s : string) :
  Forall (fun comp => sep_free comp = true) (split sep s).
Proof.
  induction s as [|d s IH]; cbn [split].
  - repeat constructor.
  - destruct (eqb_ascii sep d) eqn:E.
    + constructor; [reflexivity | exact IH].
    + destruct (split sep s) as [|p ps].
      * repeat constructor. rewrite sep_free_cons, E. reflexivity.
      * inversion IH; subst. constructor; [| assumption].
        rewrite sep_free_cons, E. assumption.
Qed.

Lemma split_free (p : string) : sep_free p = true -> split sep p = [p].
Proof.
  induction p as [|d p IH]; [reflexivity |].
  rewrite sep_free_cons. intros H. apply andb_true_iff in H as [Hd Hp].
  apply negb_true_iff in Hd. cbn [split]. rewrite Hd. now rewrite (IH Hp).
Qed.

Lemma split_append_sep (p s : string) :
  sep_free p = true ->
  split sep (p ++ String sep s)%string = p :: split sep s.
Proof.
  induction p as [|d p IH]; intros H.
  - cbn [append split]. now rewrite eqb_ascii_refl.
  - rewrite sep_free_cons in H. apply andb_true_iff in H as [Hd Hp].
    apply negb_true_iff in Hd. cbn [append split]. rewrite Hd.
    now rewrite (IH Hp).
Qed.

Lemma split_join (l : list string) :
  l <> [] -> Forall (fun comp => sep_free comp = true) l ->
  split sep (Str.join "/" l) = l.
Proof.
  induction l as [|p l IH]; [contradiction |].
  intros _ H. inversion H as [| ? ? Hp Hl]; subst.
  destruct l as [|q l].
  - cbn [Str.join]. now apply split_free.
  - change (Str.join "/" (p :: q :: l)) with (p ++ String sep (Str.join "/" (q :: l)))%string.
    rewrite split_append_sep by exact Hp.
    f_equal. apply IH; [discriminate | exact Hl].
Qed.

Lemma all_dotdot_at_bottom (st : list string) :
  List.forallb is_dotdot st = true -> dotdots_at_bottom st = true.
Proof.
  induction st as [|c st IH]; simpl; [reflexivity |].
  intros H. apply andb_true_iff in H as [Hc Hs]. now rewrite Hc.
Qed.

Lemma dotdots_at_bottom_tail (c : string) (st : list string) :
  dotdots_at_bottom (c :: st) = true -> dotdots_at_bottom st = true.
Proof.
  simpl. destruct (is_dotdot c); [apply all_dotdot_at_bottom | auto].
Qed.

Lemma dotdots_below (l acc : list string) :
  dotdots_at_bottom (l ++ ".."%string :: acc) = true ->
  List.forallb is_dotdot acc = true.
Proof.
  induction l as [|c l IH]; simpl.
  - auto.
  - destruct (is_dotdot c); [| exact IH].
    rewrite forallb_app. simpl. intros H.
    apply andb_true_iff in H as [_ H]. exact H.
Qed.

(** one turn of the loop keeps the stack normal *)
Lemma norm_step_normal (k : nat) (st : list string) (comp : string) :
  sep_free comp = true ->
  normal_stack k st = true ->
  normal_stack k (norm_step k st comp) = true.
Proof.
  intros Hfree Hst. unfold norm_step.
  destruct (String.eqb comp "") eqn:E1; [exact Hst |].
  destruct (String.eqb comp ".") eqn:E2; [exact Hst |].
  cbn [orb].
  unfold normal_stack in *. apply andb_true_iff in Hst as [Hcl Han].
  fold (is_dotdot comp).
  destruct (is_dotdot comp) eqn:Edd; cbn [negb orb].
  - (* comp is [..] *)
    destruct (Nat.eqb k 0) eqn:Ek; cbn [andb].
    + destruct st as [|top st'].
      * cbn. unfold clean_comp. now rewrite E1, E2, Hfree, Edd.
      * cbn [is_nil orb]. fold (is_dotdot top).
        destruct (is_dotdot top) eqn:Et.
        -- cbn [List.forallb dotdots_at_bottom]. rewrite Edd.
           unfold clean_comp at 1. rewrite E1, E2, Hfree. cbn [negb andb].
           cbn [List.forallb] in Hcl. rewrite Hcl. cbn [andb].
           cbn [dotdots_at_bottom] in Han. rewrite Et in Han.
           cbn [List.forallb]. now rewrite Et, Han.
        -- cbn [List.forallb] in Hcl. apply andb_true_iff in Hcl as [_ Hcl].
           rewrite Hcl. cbn [andb].
           eapply dotdots_at_bottom_tail. exact Han.
    + destruct st as [|top st']; [reflexivity |].
      fold (is_dotdot top).
      cbn [List.forallb] in Han. apply andb_true_iff in Han as [Ht Han].
      apply negb_true_iff in Ht. rewrite Ht.
      cbn [List.forallb] in Hcl. apply andb_true_iff in Hcl as [_ Hcl].
      cbn [orb]. now rewrite Hcl, Han.
  - (* any other component is appended *)
    cbn [List.forallb]. unfold clean_comp at 1. rewrite E1, E2, Hfree, Hcl.
    cbn [negb andb].
    destruct (Nat.eqb k 0).
    + cbn [dotdots_at_bottom]. now rewrite Edd.
    + cbn [List.forallb]. now rewrite Edd, Han.
Qed.

Lemma fold_norm_step_normal (k : nat) (comps st : list string) :
  Forall (fun comp => sep_free comp = true) comps ->
  normal_stack k st = true ->
  normal_stack k (fold_left (norm_step k) comps st) = true.
Proof.
  revert st. induction comps as [|c comps IH]; intros st Hc Hst; simpl.
  - exact Hst.
  - inversion Hc; subst. apply IH; [assumption |].
    now apply norm_step_normal.
Qed.

Lemma is_dotdot_eq (comp : string) : is_dotdot comp = true -> comp = ".."%string.
Proof. apply String.eqb_eq. Qed.

(** on a normal list of components the loop changes nothing *)
Lemma fold_norm_step_id (k : nat) (l acc : list string) :
  normal_stack k (rev l ++ acc) = true ->
  fold_left (norm_step k) l acc = rev l ++ acc.
Proof.
  revert acc. induction l as [|c l IH]; intros acc H; [reflexivity |].
  cbn [rev fold_left] in *. rewrite <- app_assoc in *. cbn [app] in *.
  assert (Hstep : norm_step k acc c = c :: acc).
  { unfold normal_stack in H. apply andb_true_iff in H as [Hcl Han].
    rewrite List.forallb_app in Hcl. apply andb_true_iff in Hcl as [_ Hcl].
    cbn [List.forallb] in Hcl. apply andb_true_iff in Hcl as [Hc _].
    unfold clean_comp in Hc. apply andb_true_iff in Hc as [Hc _].
    apply andb_true_iff in Hc as [E1 E2].
    apply negb_true_iff in E1. apply negb_true_iff in E2.
    unfold norm_step. rewrite E1, E2. cbn [orb].
    fold (is_dotdot c). destruct (is_dotdot c) eqn:Edd; [| reflexivity].
    cbn [negb orb].
    destruct (Nat.eqb k 0) eqn:Ek.
    - apply is_dotdot_eq in Edd. subst c.
      apply dotdots_below in Han.
      destruct acc as [|top acc']; [reflexivity |].
      cbn [List.forallb] in Han. apply andb_true_iff in Han as [Ht _].
      unfold is_dotdot in Ht. rewrite Ht. now rewrite orb_true_r.
    - rewrite List.forallb_app in Han. apply andb_true_iff in Han as [_ Han].
      cbn [List.forallb] in Han. rewrite Edd in Han. discriminate. }
  rewrite Hstep. now apply IH.
Qed.

Lemma fold_norm_step_empties (k n : nat) (l acc : list string) :
  fold_left (norm_step k) (repeat ""%string n ++ l) acc
  = fold_left (norm_step k) l acc.
Proof. induction n as [|n IH]; [reflexivity | exact IH]. Qed.

Lemma split_slashes (n : nat) (s : string) :
  split sep (slashes n ++ s)%string = repeat ""%string n ++ split sep s.
Proof.
  induction n as [|n IH]; [reflexivity |].
  cbn [slashes append split repeat app]. now rewrite eqb_ascii_refl, IH.
Qed.

Lemma initial_slashes_le (path : string) : initial_slashes_of path <= 2.
Proof.
  unfold initial_slashes_of.
  destruct (startswith "/" path); [| lia].
  destruct (startswith "//" path && negb (startswith "///" path)); lia.
Qed.

Lemma normal_stack_rev (k : nat) (st : list string) :
  normal_stack k st = true ->
  Forall (fun comp => clean_comp comp = true) (rev st).
Proof.
  unfold normal_stack. intros H. apply andb_true_iff in H as [H _].
  apply Forall_rev. apply Forall_forall. intros c Hc.
  rewrite List.forallb_forall in H. now apply H.
Qed.

Lemma clean_sep_free (l : list string) :
  Forall (fun comp => clean_comp comp = true) l ->
  Forall (fun comp => sep_free comp = true) l.
Proof.
  apply Forall_impl. intros c H. unfold clean_comp in H.
  now apply andb_true_iff in H as [_ H].
Qed.

(** the first character of a clean component is not the separator *)
Lemma clean_head (comp : string) :
  clean_comp comp = true ->
  exists x rest, comp = String x rest /\ eqb_ascii sep x = false.
Proof.
  unfold clean_comp. destruct comp as [|x rest]; [discriminate |].
  intros H. apply andb_true_iff in H as [_ H].
  rewrite sep_free_cons in H. apply andb_true_iff in H as [H _].
  apply negb_true_iff in H. now exists x, rest.
Qed.

Lemma join_head (x : ascii) (rest : string) (l : list string) :
  exists tl, Str.join "/" (String x rest :: l) = String x tl.
Proof.
  destruct l as [|q l]; [now exists rest |].
  now exists (rest ++ "/" ++ Str.join "/" (q :: l))%string.
Qed.

(** what [normpath] returns is left as it is by [normpath] *)
Lemma normpath_normal_form (k : nat) (st : list string) :
  k <= 2 -> normal_stack k st = true ->
  is_empty (slashes k ++ Str.join "/" (rev st))%string = false ->
  normpath (slashes k ++ Str.join "/" (rev st))%string
  = (slashes k ++ Str.join "/" (rev st))%string.
Proof.
  intros Hk Hst Hr.
  pose proof (normal_stack_rev _ _ Hst) as Hclean.
  pose proof (fold_norm_step_id k (rev st) []) as Hfold.
  rewrite rev_involutive, app_nil_r in Hfold. specialize (Hfold Hst).
  destruct (rev st) as [|c l] eqn:El.
  - (* no component: the path is made of the initial slashes *)
    destruct k as [|[|[|k]]]; [discriminate Hr | reflexivity | reflexivity | lia].
  - apply Forall_cons_iff in Hclean as [Hc Hl].
    destruct (clean_head _ Hc) as (x & rest & -> & Hx). unfold sep in Hx.
    destruct (join_head x rest l) as (tl & Htl).
    assert (Hk' : initial_slashes_of
                    (slashes k ++ Str.join "/" (String x rest :: l))%string = k).
    { rewrite Htl. unfold initial_slashes_of.
      destruct k as [|[|[|k]]]; cbn [slashes append startswith];
        rewrite ?eqb_ascii_refl, ?Hx; try reflexivity; lia. }
    unfold normpath. rewrite Hr, Hk'.
    rewrite split_slashes.
    rewrite split_join;
      [| discriminate | apply clean_sep_free; constructor; assumption].
    rewrite fold_norm_step_empties, Hfold, El.
    now rewrite Hr.
Qed.

Theorem normpath_idempotent (path : string) :
  normpath (normpath path) = normpath path.
Proof.
  unfold normpath at 2 3.
  destruct (is_empty path); [reflexivity |].
  set (k := initial_slashes_of path).
  set (st := fold_left (norm_step k) (split sep path) []).
  assert (Hst : normal_stack k st = true).
  { apply fold_norm_step_normal; [apply split_sep_free |].
    unfold normal_stack. cbn. now destruct (Nat.eqb k 0). }
  destruct (is_empty (slashes k ++ Str.join "/" (rev st))%string) eqn:E;
    [reflexivity |].
  apply (normpath_normal_form k st); [apply initial_slashes_le | exact Hst | exact E].
Qed.

End PathFacts.

(** ** The manager *)

Module ManagerFacts.
Import Str StrFacts Uuid UuidFacts PosixPath PathFacts Sqlite TableFacts.
Import FileIdManager Spec.
Local Open Scope list_scope.

Lemma normalize_idempotent (path : string) :
  _normalize_path (_normalize_path path) = _normalize_path path.
Proof. unfold _normalize_path, normcase. apply normpath_idempotent. Qed.

Lemma canonical_id_inv (i : string) :
  canonical_id i = true ->
  exists u, (u < bits128)%N /\ of_string i = Some u /\ i = hex u.
Proof.
  unfold canonical_id. destruct (of_string i) as [u |] eqn:E; [| discriminate].
  intros H. apply String.eqb_eq in H. exists u.
  split; [now apply of_string_range in E | now split].
Qed.

Lemma canonical_hex (u : N) : (u < bits128)%N -> canonical_id (hex u) = true.
Proof.
  intros H. unfold canonical_id. rewrite (of_string_hex _ H).
  apply String.eqb_refl.
Qed.

Lemma get_id_unfold (path : string) (c : Connection) :
  get_id path c =
  match select_id (_normalize_path path) (rows c) with
  | Some i => match of_string i with
              | Some u => Ok (Some (str u)) c
              | None => Raise ValueError c
              end
  | None => Ok None c
  end.
Proof.
  unfold get_id, bind, fetchone.
  destruct (select_id _ _) as [i |]; [| reflexivity].
  now destruct (of_string i).
Qed.

(** [get_id] never changes the connection *)
Lemma get_id_pure (path : string) (c : Connection) : conn_of (get_id path c) = c.
Proof.
  rewrite get_id_unfold. destruct (select_id _ _) as [i |]; [| reflexivity].
  now destruct (of_string i).
Qed.

Lemma get_id_absent (path : string) (c : Connection) :
  path_taken (_normalize_path path) (rows c) = false ->
  get_id path c = Ok None c.
Proof.
  intros H. rewrite get_id_unfold.
  apply select_id_none in H. now rewrite H.
Qed.

Lemma get_id_none_inv (path : string) (c c' : Connection) :
  get_id path c = Ok None c' ->
  path_taken (_normalize_path path) (rows c) = false.
Proof.
  rewrite get_id_unfold.
  destruct (select_id _ _) as [i |] eqn:E.
  - destruct (of_string i); discriminate.
  - intros _. now apply select_id_none.
Qed.

Lemma get_id_some_inv (path i : string) (c c' : Connection) :
  get_id path c = Ok (Some i) c' ->
  c' = c /\ exists r u, In r (rows c) /\ row_path r = _normalize_path path
                        /\ of_string (row_id r) = Some u /\ i = str u.
Proof.
  rewrite get_id_unfold.
  destruct (select_id _ _) as [j |] eqn:E; [| discriminate].
  destruct (of_string j) as [u |] eqn:Eu; [| discriminate].
  intros [= <- <-]. split; [reflexivity |].
  apply select_id_some in E as (r & Hin & Hp & Hi). subst j.
  now exists r, u.
Qed.

(** the row of a path, read back through [get_id] *)
Lemma get_id_row (path : string) (u : N) (c : Connection) :
  one_record_per_path (rows c) ->
  In (mkRow (hex u) (_normalize_path path)) (rows c) ->
  (u < bits128)%N ->
  get_id path c = Ok (Some (str u)) c.
Proof.
  intros Hp Hin Hu. rewrite get_id_unfold.
  pose proof (select_id_row _ _ Hp Hin) as E. cbn [row_path row_id] in E.
  rewrite E.
  now rewrite (of_string_hex _ Hu).
Qed.

Lemma get_id_normalized (path : string) (c : Connection) :
  get_id (_normalize_path path) c = get_id path c.
Proof. rewrite !get_id_unfold. now rewrite normalize_idempotent. Qed.

Lemma select_id_snoc (p : string) (r : Row) (t : Table) :
  select_id p t = None ->
  select_id p (t ++ [r])
  = if String.eqb (row_path r) p then Some (row_id r) else None.
Proof.
  unfold select_id. induction t as [|x t IH]; simpl.
  - now destruct (String.eqb (row_path r) p).
  - destruct (String.eqb (row_path x) p); [discriminate | exact IH].
Qed.

Lemma select_path_snoc (i : string) (r : Row) (t : Table) :
  select_path i t = None ->
  select_path i (t ++ [r])
  = if String.eqb (row_id r) i then Some (row_path r) else None.
Proof.
  unfold select_path. induction t as [|x t IH]; simpl.
  - now destruct (String.eqb (row_id r) i).
  - destruct (String.eqb (row_id x) i); [discriminate | exact IH].
Qed.

Lemma next_uuid_range (c : Connection) : (next_uuid c < bits128)%N.
Proof. apply uuid4_range. Qed.

Lemma _index_unfold (path : string) (c : Connection) :
  _index path c =
  if id_taken (hex (next_uuid c)) (rows c) || path_taken path (rows c)
  then Raise IntegrityError (after_draw c)
  else Ok (str (next_uuid c)) (indexed path c).
Proof.
  unfold _index, bind, uuid4, _insert, execute, insert_row, ret.
  cbn [rows row_id row_path]. fold (next_uuid c).
  now destruct (id_taken _ _ || path_taken _ _).
Qed.

(** [index] on a path that has a record *)
Lemma index_existing (path i : string) (c : Connection) :
  get_id path c = Ok (Some i) c -> index path c = Ok i c.
Proof.
  intros H. unfold index, bind. now rewrite get_id_normalized, H.
Qed.

(** [index] on a path without record *)
Lemma index_new (path : string) (c : Connection) :
  get_id path c = Ok None c ->
  index path c =
  if id_taken (hex (next_uuid c)) (rows c)
  then Raise IntegrityError (after_draw c)
  else Ok (str (next_uuid c))
          (mkCon (rows c ++ [mkRow (hex (next_uuid c)) (_normalize_path path)])
                 (rows c ++ [mkRow (hex (next_uuid c)) (_normalize_path path)])
                 (entropy c) (S (drawn c))).
Proof.
  intros H. unfold index, bind. rewrite get_id_normalized, H.
  rewrite _index_unfold. apply get_id_none_inv in H. rewrite H, orb_false_r.
  now destruct (id_taken _ _).
Qed.

(** the result of [get_id] is [Ok] with the connection unchanged, or
    [ValueError] *)
Lemma get_id_cases (path : string) (c : Connection) :
  (exists o, get_id path c = Ok o c) \/ get_id path c = Raise ValueError c.
Proof.
  rewrite get_id_unfold. destruct (select_id _ _) as [i |]; [| left; now eexists].
  destruct (of_string i); [left; now eexists | now right].
Qed.

(** once [index] has answered, it keeps answering the same on the
    connection it left *)
Lemma index_again (path i : string) (c c1 : Connection) :
  index path c = Ok i c1 -> index path c1 = Ok i c1.
Proof.
  intros H.
  destruct (get_id_cases path c) as [[[j |] Hg] | Hg].
  - rewrite (index_existing _ _ _ Hg) in H. injection H as <- <-.
    now apply index_existing.
  - rewrite (index_new _ _ Hg) in H.
    destruct (id_taken _ _) eqn:Ei; [discriminate |].
    injection H as <- <-.
    apply index_existing. rewrite get_id_unfold. cbn [rows].
    apply get_id_none_inv, select_id_none in Hg.
    rewrite (select_id_snoc _ _ _ Hg). cbn [row_path row_id].
    rewrite String.eqb_refl, of_string_hex by apply next_uuid_range.
    reflexivity.
  - unfold index, bind in H. rewrite get_id_normalized, Hg in H. discriminate.
Qed.

(** *** Subtrees *)

Lemma join_star (path : string) : PosixPath.join path "*" = (dir_prefix path ++ "*")%string.
Proof.
  unfold PosixPath.join, dir_prefix. cbn [startswith eqb_ascii Ascii.eqb Bool.eqb].
  destruct (is_empty path || endswith_char sep path); [reflexivity |].
  now rewrite append_assoc.
Qed.

Lemma glob_free_append (a b : string) :
  glob_free (a ++ b) = glob_free a && glob_free b.
Proof. apply forallb_append. Qed.

Lemma glob_free_dir_prefix (path : string) :
  glob_free path = true -> glob_free (dir_prefix path) = true.
Proof.
  intros H. unfold dir_prefix.
  destruct (is_empty path || endswith_char sep path); [exact H |].
  now rewrite glob_free_append, H.
Qed.

Lemma nul_free_dir_prefix (path : string) :
  nul_free (dir_prefix path) = nul_free path.
Proof.
  unfold dir_prefix.
  destruct (is_empty path || endswith_char sep path); [reflexivity |].
  rewrite GlobFacts.nul_free_append. apply andb_true_r.
Qed.


(** without metacharacter and without NUL in [path], the rows [GLOB]
    selects are the rows that lie under [path] *)
Lemma under_lies_under (path : string) (r : Row) :
  glob_free path = true -> nul_free path = true ->
  under path r = lies_under path (row_path r).
Proof.
  intros H Hn. unfold under, lies_under. rewrite join_star.
  apply GlobFacts.glob_literal_star; [now apply glob_free_dir_prefix |].
  now rewrite nul_free_dir_prefix.
Qed.



Lemma startswith_prefix (a b x : string) :
  startswith (a ++ b) x = true -> startswith a x = true.
Proof.
  revert x. induction a as [|c a IH]; intros x; [reflexivity |].
  destruct x as [|d x]; [discriminate |].
  cbn [append startswith]. intros H. apply andb_true_iff in H as [H1 H2].
  now rewrite H1, (IH _ H2).
Qed.

(** a path followed by a separator and any suffix lies under that path *)
Lemma sep_suffix_lies_under (path x : string) :
  startswith (path ++ "/") x = true -> lies_under path x = true.
Proof.
  unfold lies_under, dir_prefix.
  destruct (is_empty path || endswith_char sep path); [| auto].
  apply startswith_prefix.
Qed.

Lemma delete_unfold (path : string) (recursive : bool) (c : Connection) :
  delete path recursive c = Ok tt (deleted (_normalize_path path) recursive c).
Proof. now destruct recursive. Qed.




(** *** What every computation of the manager preserves

    A table property that the three kinds of statement preserve is
    preserved by every method, whether it returns or raises. *)

Section Preservation.

Variable P : Table -> Prop.

Hypothesis P_insert :
  forall u path t t',
    (u < bits128)%N -> P t -> insert_row (mkRow (hex u) path) t = Some t' -> P t'.
Hypothesis P_update :
  forall sel f t t', P t -> update_path sel f t = Some t' -> P t'.
Hypothesis P_delete :
  forall sel t, P t -> P (delete_where sel t).

Lemma triple_ret {A} (a : A) (Q : A -> Prop) : Q a -> triple P (ret a) Q.
Proof. now intros Ha c Hc. Qed.

Lemma triple_raise {A} (e : exn) (Q : A -> Prop) : triple P (raise e) Q.
Proof. now intros c Hc. Qed.

Lemma triple_bind {A B} (m : M A) (k : A -> M B) (Q : A -> Prop) (R : B -> Prop) :
  triple P m Q -> (forall a, Q a -> triple P (k a) R) -> triple P (bind m k) R.
Proof.
  intros Hm Hk c Hc. unfold bind. specialize (Hm c Hc).
  destruct (m c) as [a c' | e c']; [| exact Hm].
  destruct Hm as [Ha Hc']. now apply Hk.
Qed.

Lemma triple_weaken {A} (m : M A) (Q R : A -> Prop) :
  (forall a, Q a -> R a) -> triple P m Q -> triple P m R.
Proof.
  intros HQR Hm c Hc. specialize (Hm c Hc).
  destruct (m c) as [a c' | e c']; [| exact Hm].
  destruct Hm as [Ha Hc']. split; [now apply HQR | exact Hc'].
Qed.

Lemma triple_uuid4 : triple P uuid4 (fun u => (u < bits128)%N).
Proof. intros c Hc. split; [apply uuid4_range | exact Hc]. Qed.

Lemma triple_commit : triple P commit anything.
Proof. intros c [Hr _]. now repeat split. Qed.

Lemma triple_fetchone {A} (query : Table -> option A) :
  triple P (fetchone query) anything.
Proof. now intros c Hc. Qed.

Lemma triple_execute (stmt : Table -> option Table) :
  (forall t t', P t -> stmt t = Some t' -> P t') ->
  triple P (execute stmt) anything.
Proof.
  intros H c [Hr Hc]. unfold execute.
  destruct (stmt (rows c)) as [t' |] eqn:E; [| now split].
  split; [exact I |]. split; [now apply (H _ _ Hr E) | exact Hc].
Qed.

Lemma triple__insert (u : N) (path : string) :
  (u < bits128)%N -> triple P (_insert (hex u) path) anything.
Proof.
  intros Hu. apply triple_execute. intros t t' Ht E.
  now apply (P_insert u path t t').
Qed.

Lemma triple_update (sel : Row -> bool) (f : Row -> string) :
  triple P (execute (update_path sel f)) anything.
Proof. apply triple_execute. intros t t'. apply P_update. Qed.

Lemma triple_delete_where (sel : Row -> bool) :
  triple P (execute (fun t => Some (delete_where sel t))) anything.
Proof.
  apply triple_execute. intros t t' Ht [= <-]. now apply P_delete.
Qed.

Lemma triple_get_id (path : string) : triple P (get_id path) anything.
Proof.
  intros c Hc. rewrite get_id_unfold.
  destruct (select_id _ _) as [i |]; [| now split].
  now destruct (of_string i).
Qed.

Lemma triple_get_path (fid : string) : triple P (get_path fid) anything.
Proof.
  unfold get_path. destruct (of_string fid);
    [apply triple_fetchone | apply triple_raise].
Qed.

Lemma triple__index (path : string) : triple P (_index path) anything.
Proof.
  unfold _index. eapply triple_bind; [apply triple_uuid4 | intros u Hu].
  eapply triple_bind; [now apply triple__insert | intros _ _].
  now apply triple_ret.
Qed.

Lemma triple_index (path : string) : triple P (index path) anything.
Proof.
  unfold index. eapply triple_bind; [apply triple_get_id | intros [i |] _].
  - now apply triple_ret.
  - eapply triple_bind; [apply triple__index | intros s _].
    eapply triple_bind; [apply triple_commit | intros _ _].
    now apply triple_ret.
Qed.

Lemma triple_insert (path : string) (fid : fid_arg) :
  triple P (insert path fid) anything.
Proof.
  unfold insert.
  apply (triple_bind _ _ (fun u => (u < bits128)%N)).
  - destruct (falsy fid); [apply triple_uuid4 |].
    destruct fid as [| s | u]; [apply triple_uuid4 | |].
    + destruct (of_string s) as [u |] eqn:E; [| apply triple_raise].
      apply triple_ret. now apply of_string_range in E.
    + apply triple_ret. apply N.ltb_lt, int_range.
  - intros u Hu. eapply triple_bind; [now apply triple__insert | intros _ _].
    eapply triple_bind; [apply triple_commit | intros _ _].
    now apply triple_ret.
Qed.

Lemma triple_move (old_path new_path : string) (recursive : bool) :
  triple P (move old_path new_path recursive) anything.
Proof.
  unfold move. apply (triple_bind _ _ anything).
  - destruct recursive; [apply triple_update | now apply triple_ret].
  - intros _ _. eapply triple_bind; [apply triple_get_id | intros fid _].
    apply (triple_bind _ _ anything).
    + destruct fid as [fid |].
      * destruct (of_string fid); [| apply triple_raise].
        eapply triple_bind; [apply triple_update | intros _ _].
        now apply triple_ret.
      * eapply triple_bind; [apply triple_uuid4 | intros u Hu].
        eapply triple_bind; [now apply triple__insert | intros _ _].
        now apply triple_ret.
    + intros i _. eapply triple_bind; [apply triple_commit | intros _ _].
      now apply triple_ret.
Qed.

Lemma triple_new_uuid_rows (paths : list string) :
  triple P (new_uuid_rows paths) hex_ids.
Proof.
  induction paths as [|p ps IH]; cbn [new_uuid_rows].
  - apply triple_ret. constructor.
  - eapply triple_bind; [apply triple_uuid4 | intros u Hu].
    eapply triple_bind; [exact IH | intros rs Hrs].
    apply triple_ret. constructor; [now exists u | exact Hrs].
Qed.

Lemma P_insert_rows (rs : list Row) (t t' : Table) :
  hex_ids rs -> P t -> insert_rows rs t = Some t' -> P t'.
Proof.
  revert t. induction rs as [|r rs IH]; intros t Hrs Ht; cbn [insert_rows].
  - now intros [= <-].
  - inversion Hrs as [| ? ? (u & Hu & Hid) Hrs']; subst.
    destruct (insert_row r t) as [t1 |] eqn:E; [| discriminate].
    apply IH; [exact Hrs' |].
    destruct r as [i p]. cbn in Hid. subst i.
    now apply (P_insert u p t t1).
Qed.

Lemma triple_copy (from_path to_path : string) (recursive : bool) :
  triple P (copy from_path to_path recursive) anything.
Proof.
  unfold copy. apply (triple_bind _ _ anything).
  - destruct recursive; [| now apply triple_ret].
    intros c Hc. cbv beta.
    refine (triple_bind _ _ hex_ids _ _ _ c Hc);
      [apply triple_new_uuid_rows | intros rs Hrs].
    apply triple_execute. intros t t'. now apply P_insert_rows.
  - intros _ _. eapply triple_bind; [apply triple_index | intros _ _].
    eapply triple_bind; [apply triple__index | intros r _].
    eapply triple_bind; [apply triple_commit | intros _ _].
    now apply triple_ret.
Qed.

Lemma triple_delete (path : string) (recursive : bool) :
  triple P (delete path recursive) anything.
Proof.
  unfold delete. apply (triple_bind _ _ anything).
  - destruct recursive; [apply triple_delete_where | now apply triple_ret].
  - intros _ _. eapply triple_bind; [apply triple_delete_where | intros _ _].
    apply triple_commit.
Qed.

Lemma triple_conn {A} (m : M A) (Q : A -> Prop) (c : Connection) :
  triple P m Q -> holds P c -> holds P (conn_of (m c)).
Proof.
  intros Hm Hc. specialize (Hm c Hc).
  destruct (m c) as [a c' | e c']; [now destruct Hm | exact Hm].
Qed.

(** every public operation preserves the property *)
Lemma run_preserves (k : call) (c : Connection) :
  holds P c -> holds P (run k c).
Proof.
  intros Hc. destruct k; cbn [run]; eapply triple_conn; try exact Hc.
  - apply triple_index.
  - apply triple_insert.
  - apply triple_get_id.
  - apply triple_get_path.
  - apply triple_move.
  - apply triple_copy.
  - apply triple_delete.
Qed.

End Preservation.

(** the uniqueness constraints are such a property *)
Lemma run_consistent (k : call) (c : Connection) : good c -> good (run k c).
Proof.
  apply run_preserves.
  - intros u path t t' _. apply consistent_insert_row.
  - intros sel f t t'. apply consistent_update_path.
  - intros sel t. apply consistent_delete_where.
Qed.

(** and so is the well-formedness of the identifier column *)
Lemma run_ids_ok (k : call) (c : Connection) :
  holds ids_ok c -> holds ids_ok (run k c).
Proof.
  apply run_preserves.
  - intros u path t t' Hu Ht E. apply insert_row_some in E as (_ & _ & ->).
    apply ids_ok_app. split; [exact Ht |].
    repeat constructor. now apply canonical_hex.
  - intros sel f t t' Ht E. apply update_path_result in E. subst t'.
    now apply ids_ok_updated.
  - intros sel t. apply ids_ok_delete_where.
Qed.

(** both hold of every connection a manager can be in *)
Lemma reachable_invariants (c : Connection) :
  reachable c -> good c /\ holds ids_ok c.
Proof.
  induction 1 as [e | k c _ [Hgood Hids]].
  - repeat split; constructor.
  - split; [now apply run_consistent | now apply run_ids_ok].
Qed.

Lemma NoDup_map_inj {A B} (g : A -> B) (l : list A) (x y : A) :
  NoDup (map g l) -> In x l -> In y l -> g x = g y -> x = y.
Proof.
  induction l as [|a l IH]; simpl; [tauto |].
  intros H Hx Hy E. inversion H as [| ? ? Ha Hl]; subst.
  destruct Hx as [-> | Hx], Hy as [-> | Hy]; auto.
  - exfalso. apply Ha. rewrite E. now apply in_map.
  - exfalso. apply Ha. rewrite <- E. now apply in_map.
Qed.

Lemma consistent_bijection (t : Table) : consistent t -> record_bijection t.
Proof.
  intros [Hi Hp] r r' Hr Hr'. split; intros E.
  - now rewrite (NoDup_map_inj _ _ _ _ Hi Hr Hr' E).
  - now rewrite (NoDup_map_inj _ _ _ _ Hp Hr Hr' E).
Qed.

(** *** Well-formed identifier column *)

Lemma get_id_ok (path : string) (c : Connection) :
  ids_ok (rows c) -> exists o, get_id path c = Ok o c.
Proof.
  intros Hids. rewrite get_id_unfold.
  destruct (select_id _ _) as [i |] eqn:E; [| now eexists].
  apply select_id_some in E as (r & Hin & _ & <-).
  unfold ids_ok in Hids. rewrite Forall_forall in Hids.
  destruct (canonical_id_inv _ (Hids r Hin)) as (u & _ & -> & _).
  now eexists.
Qed.


Lemma path_taken_app (p : string) (t1 t2 : Table) :
  path_taken p (t1 ++ t2) = path_taken p t1 || path_taken p t2.
Proof. unfold path_taken. apply existsb_app. Qed.

Lemma id_taken_app (i : string) (t1 t2 : Table) :
  id_taken i (t1 ++ t2) = id_taken i t1 || id_taken i t2.
Proof. unfold id_taken. apply existsb_app. Qed.


(** *** New records *)




Lemma descendants_under (path : string) (t : Table) :
  glob_free path = true -> nul_free path = true ->
  filter (under path) t = descendants path t.
Proof.
  intros H Hn. unfold descendants. apply filter_ext.
  intros r. now apply under_lies_under.
Qed.

(** the last steps of [copy]: the record of [to_path] *)
Lemma copy_tail (to_path i : string) (c2 c' : Connection) :
  (r <- _index to_path ;; commit ;;; ret r) c2 = Ok i c' ->
  i = str (next_uuid c2)
  /\ id_taken (hex (next_uuid c2)) (rows c2) = false
  /\ rows c' = rows c2 ++ [mkRow (hex (next_uuid c2)) to_path]
  /\ committed c' = rows c'.
Proof.
  unfold bind. rewrite _index_unfold.
  destruct (id_taken _ _) eqn:Ei; [discriminate |].
  destruct (path_taken _ _); [discriminate |].
  cbn. intros [= <- <-]. now repeat split.
Qed.

(** the record [copy] appends for [to_path] meets no record of that path *)
Lemma copy_tail_path (to_path i : string) (c2 c' : Connection) :
  (r <- _index to_path ;; commit ;;; ret r) c2 = Ok i c' ->
  path_taken to_path (rows c2) = false.
Proof.
  unfold bind. rewrite _index_unfold.
  destruct (id_taken _ _); [discriminate |].
  now destruct (path_taken _ _).
Qed.

(** [index] as [copy] uses it: what it may add to the table *)
Lemma index_added (path i : string) (c c2 : Connection) :
  index path c = Ok i c2 ->
  (rows c2 = rows c /\ path_taken (_normalize_path path) (rows c) = true)
  \/ (rows c2 = rows c ++ [mkRow (hex (next_uuid c)) (_normalize_path path)]
      /\ path_taken (_normalize_path path) (rows c) = false
      /\ id_taken (hex (next_uuid c)) (rows c) = false).
Proof.
  intros H. destruct (get_id_cases path c) as [[[j |] Hg] | Hg].
  - rewrite (index_existing _ _ _ Hg) in H. injection H as <- <-.
    left. split; [reflexivity |].
    apply get_id_some_inv in Hg as (_ & r & u & Hin & Hp & _).
    apply path_taken_In. rewrite <- Hp. now apply in_map.
  - rewrite (index_new _ _ Hg) in H.
    destruct (id_taken _ _) eqn:Ei; [discriminate |].
    injection H as <- <-. right. cbn [rows].
    split; [reflexivity |]. split; [now apply get_id_none_inv in Hg | reflexivity].
  - unfold index, bind in H. rewrite get_id_normalized, Hg in H. discriminate.
Qed.

(** *** The subtree rewrite without metacharacters, and the round trip *)

Lemma rebase_drop (old_path new_path : string) (r : Row) :
  rebase old_path new_path r
  = (new_path ++ drop (String.length old_path) (cstr (row_path r)))%string.
Proof.
  unfold rebase, substr. now rewrite Nat.add_sub.
Qed.

(** when the subtree rewrite goes through, every record under [old_path]
    keeps its identifier and has [old_path] replaced by [new_path] at the
    head of its path; every other record is as it was *)
Lemma rewrite_subtree_rows (old_path new_path : string) (c c1 : Connection) :
  glob_free old_path = true -> nul_free old_path = true ->
  rewrite_subtree old_path new_path true c = Ok tt c1 ->
  rows c1 = map (rebased old_path new_path) (rows c).
Proof.
  intros Hfree Hnul. unfold rewrite_subtree, execute.
  destruct (update_path _ _ (rows c)) as [t |] eqn:E; [| discriminate].
  intros [= <-]. cbn [rows set_rows].
  apply update_path_result in E. subst t. apply map_ext.
  intros r. unfold updated, rebased.
  now rewrite (under_lies_under _ _ Hfree Hnul), rebase_drop.
Qed.

Lemma rebased_descendant (old_path new_path suffix i : string) :
  nul_free old_path = true ->
  rebased old_path new_path (mkRow i (old_path ++ "/" ++ suffix))
  = mkRow i (new_path ++ "/" ++ cstr suffix).
Proof.
  intros Hnul. unfold rebased. cbn [row_path row_id].
  rewrite sep_suffix_lies_under.
  - rewrite (GlobFacts.cstr_append _ _ Hnul).
    change (cstr ("/" ++ suffix)) with ("/" ++ cstr suffix)%string.
    now rewrite drop_append.
  - rewrite <- append_assoc. apply startswith_append.
Qed.

(** a record whose stored path is in normal form is found both ways *)
Lemma round_trip_normalized (r : Row) (c : Connection) :
  consistent (rows c) -> In r (rows c) ->
  canonical_id (row_id r) = true ->
  _normalize_path (row_path r) = row_path r ->
  exists u, of_string (row_id r) = Some u
            /\ get_path (str u) c = Ok (Some (row_path r)) c
            /\ get_id (row_path r) c = Ok (Some (str u)) c.
Proof.
  intros [Hi Hp] Hin Hcan Hnorm.
  destruct (canonical_id_inv _ Hcan) as (u & Hu & Hof & Hid).
  exists u. split; [exact Hof |]. split.
  - unfold get_path, fetchone. rewrite (of_string_str _ Hu), <- Hid.
    now rewrite (select_path_row _ _ Hi Hin).
  - rewrite get_id_unfold, Hnorm, (select_id_row _ _ Hp Hin).
    now rewrite Hof.
Qed.

(** right after [index], the identifier and the path find each other *)
Lemma round_trip_after_index (path i : string) (c c1 : Connection) :
  consistent (rows c) -> ids_ok (rows c) ->
  index path c = Ok i c1 ->
  get_path i c1 = Ok (Some (_normalize_path path)) c1
  /\ get_id (_normalize_path path) c1 = Ok (Some i) c1.
Proof.
  intros Hcons Hids H.
  assert (Hgood : consistent (rows c1) /\ ids_ok (rows c1)
                  /\ get_id path c1 = Ok (Some i) c1).
  { destruct (get_id_cases path c) as [[[j |] Hg] | Hg].
    - rewrite (index_existing _ _ _ Hg) in H. injection H as <- <-. auto.
    - pose proof (index_again _ _ _ _ H) as Hagain.
      rewrite (index_new _ _ Hg) in H.
      destruct (id_taken _ _) eqn:Ei; [discriminate |].
      injection H as <- <-. cbn [rows]. split; [| split].
      + apply (consistent_insert_row
                 (mkRow (hex (next_uuid c)) (_normalize_path path)) (rows c));
          [exact Hcons |].
        apply insert_row_some. cbn [row_id row_path].
        split; [exact Ei |]. split; [| reflexivity].
        now apply get_id_none_inv in Hg.
      + apply ids_ok_app. split; [exact Hids |].
        repeat constructor. apply canonical_hex, next_uuid_range.
      + rewrite get_id_unfold. cbn [rows].
        apply get_id_none_inv, select_id_none in Hg.
        rewrite (select_id_snoc _ _ _ Hg). cbn [row_path row_id].
        rewrite String.eqb_refl, of_string_hex by apply next_uuid_range.
        reflexivity.
    - unfold index, bind in H. rewrite get_id_normalized, Hg in H. discriminate. }
  destruct Hgood as (Hcons1 & Hids1 & Hg1).
  destruct (get_id_some_inv _ _ _ _ Hg1) as (_ & r & u & Hin & Hp & Hu & ->).
  unfold ids_ok in Hids1. rewrite Forall_forall in Hids1.
  assert (Hnorm : _normalize_path (row_path r) = row_path r)
    by (rewrite Hp; apply normalize_idempotent).
  destruct (round_trip_normalized r c1 Hcons1 Hin (Hids1 r Hin) Hnorm)
    as (u' & Hid & Hgp & Hgi).
  assert (u' = u) by congruence.
  subst u'. rewrite <- Hp. now split.
Qed.

(** *** [move] of a subtree whose name has no metacharacter *)

Lemma rewrite_subtree_invariants (old_path new_path : string) (recursive : bool)
    (c c1 : Connection) :
  consistent (rows c) -> ids_ok (rows c) ->
  rewrite_subtree old_path new_path recursive c = Ok tt c1 ->
  consistent (rows c1) /\ ids_ok (rows c1).
Proof.
  intros Hcons Hids. unfold rewrite_subtree.
  destruct recursive; [| now intros [= <-]].
  unfold execute. destruct (update_path _ _ (rows c)) as [t |] eqn:E; [| discriminate].
  intros [= <-]. cbn [rows set_rows]. split.
  - eapply consistent_update_path; eauto.
  - apply update_path_result in E. subst t. now apply ids_ok_updated.
Qed.

(** the second half of [move] keeps every record whose path is not
    [old_path] *)
Lemma move_keeps_other_records (old_path new_path i : string) (recursive : bool)
    (c c1 c' : Connection) (x : Row) :
  rewrite_subtree (_normalize_path old_path) (_normalize_path new_path)
    recursive c = Ok tt c1 ->
  consistent (rows c1) -> ids_ok (rows c1) ->
  move old_path new_path recursive c = Ok i c' ->
  In x (rows c1) -> row_path x <> _normalize_path old_path ->
  In x (rows c').
Proof.
  intros Hrw [Hone _] Hids H Hx Hpath.
  unfold move, bind in H.
  fold (rewrite_subtree (_normalize_path old_path) (_normalize_path new_path)
          recursive) in H.
  rewrite Hrw, get_id_normalized in H.
  destruct (get_id_cases old_path c1) as [[[fid |] Hg] | Hg]; rewrite Hg in H.
  - destruct (get_id_some_inv _ _ _ _ Hg) as (_ & r0 & u & Hin0 & Hp0 & Hu0 & ->).
    unfold ids_ok in Hids. rewrite Forall_forall in Hids.
    destruct (canonical_id_inv _ (Hids r0 Hin0)) as (u' & Hr & Hu' & Hid0).
    rewrite Hu0 in Hu'. injection Hu' as <-.
    rewrite (of_string_str _ Hr) in H. unfold execute in H.
    destruct (update_path _ _ (rows c1)) as [t |] eqn:E; [| discriminate].
    cbn in H. injection H as _ <-. cbn [rows].
    apply update_path_result in E. subst t.
    apply in_map_iff. exists x. split; [| exact Hx].
    unfold updated. destruct (String.eqb (row_id x) (hex u)) eqn:Ex; [| reflexivity].
    apply String.eqb_eq in Ex. exfalso. apply Hpath.
    rewrite <- Hp0. f_equal.
    apply (NoDup_map_inj row_id (rows c1));
      [exact Hone | exact Hx | exact Hin0 | congruence].
  - unfold uuid4, _insert, execute in H. cbn [rows] in H.
    destruct (insert_row _ (rows c1)) as [t |] eqn:E; [| discriminate].
    cbn in H. injection H as _ <-. cbn [rows].
    apply insert_row_some in E as (_ & _ & ->).
    apply in_app_iff. now left.
  - discriminate.
Qed.

(** for an [old_path] without metacharacter and without NUL, and a [move]
    that returns: every record whose path is [old_path], a separator and
    a suffix keeps its identifier and gets the path [new_path], the
    separator and the suffix up to its first NUL (unless that path is
    [old_path] itself, which the second half of [move] renames), and
    every record that neither lies under [old_path] nor is its record is
    left as it was *)
Lemma move_subtree_plain (old_path new_path i : string) (c c' : Connection) :
  glob_free (_normalize_path old_path) = true ->
  nul_free (_normalize_path old_path) = true ->
  consistent (rows c) -> ids_ok (rows c) ->
  move old_path new_path true c = Ok i c' ->
  forall r, In r (rows c) ->
    (forall suffix,
       row_path r = (_normalize_path old_path ++ "/" ++ suffix)%string ->
       (_normalize_path new_path ++ "/" ++ cstr suffix)%string
       <> _normalize_path old_path ->
       In (mkRow (row_id r) (_normalize_path new_path ++ "/" ++ cstr suffix))
          (rows c'))
    /\ (lies_under (_normalize_path old_path) (row_path r) = false ->
        row_path r <> _normalize_path old_path ->
        In r (rows c')).
Proof.
  intros Hfree Hnul Hcons Hids H r Hr.
  destruct (rewrite_subtree (_normalize_path old_path) (_normalize_path new_path)
              true c) as [[] c1 | e c1] eqn:Hrw.
  2: { unfold move, bind in H.
       fold (rewrite_subtree (_normalize_path old_path)
               (_normalize_path new_path) true) in H.
       rewrite Hrw in H. discriminate. }
  destruct (rewrite_subtree_invariants _ _ _ _ _ Hcons Hids Hrw) as [Hcons1 Hids1].
  pose proof (rewrite_subtree_rows _ _ _ _ Hfree Hnul Hrw) as Hrows.
  assert (Hin : In (rebased (_normalize_path old_path) (_normalize_path new_path) r)
                   (rows c1)).
  { rewrite Hrows. now apply in_map. }
  split.
  - intros suffix Hp Hne. destruct r as [j p]. cbn [row_path row_id] in *. subst p.
    rewrite (rebased_descendant _ _ _ _ Hnul) in Hin.
    now apply (move_keeps_other_records _ _ _ _ _ _ _ _ Hrw Hcons1 Hids1 H Hin).
  - intros Hnot Hne. unfold rebased in Hin. rewrite Hnot in Hin.
    now apply (move_keeps_other_records _ _ _ _ _ _ _ _ Hrw Hcons1 Hids1 H Hin).
Qed.

(** *** When [copy] of a subtree returns *)

Lemma new_uuid_rows_unfold (paths : list string) (c : Connection) :
  new_uuid_rows paths c
  = Ok (drawn_rows (entropy c) (drawn c) paths)
       (mkCon (rows c) (committed c) (entropy c) (drawn c + length paths)).
Proof.
  revert c. induction paths as [|p ps IH]; intros c; cbn [new_uuid_rows].
  - unfold ret. cbn [length]. rewrite Nat.add_0_r. now destruct c.
  - unfold bind, uuid4. rewrite IH. cbn [rows committed entropy drawn length drawn_rows].
    unfold ret. now rewrite Nat.add_succ_r.
Qed.

Lemma drawn_rows_paths (e : nat -> N) (k : nat) (paths : list string) :
  map row_path (drawn_rows e k paths) = paths.
Proof.
  revert k. induction paths as [|p ps IH]; intros k; [reflexivity |].
  cbn. now rewrite IH.
Qed.

Lemma drawn_rows_ids (e : nat -> N) (k : nat) (paths : list string) :
  map row_id (drawn_rows e k paths)
  = map (fun j => hex (uuid4_of_random (e j))) (seq k (length paths)).
Proof.
  revert k. induction paths as [|p ps IH]; intros k; [reflexivity |].
  cbn. now rewrite IH.
Qed.

Lemma NoDup_map_inj_on {A B} (g : A -> B) (l : list A) :
  NoDup l ->
  (forall x y, In x l -> In y l -> g x = g y -> x = y) ->
  NoDup (map g l).
Proof.
  induction 1 as [| a l Ha Hl IH]; intros Hinj; [constructor |].
  cbn. constructor.
  - intros Hin. apply in_map_iff in Hin as (b & E & Hb).
    apply Ha. rewrite <- (Hinj b a); [exact Hb | now right | now left | exact E].
  - apply IH. intros x y Hx Hy. apply Hinj; now right.
Qed.

(** an [INSERT ... SELECT] of rows that collide neither with the table
    nor with one another goes through *)
Lemma insert_rows_fresh (rs : list Row) (t : Table) :
  NoDup (map row_id rs) -> NoDup (map row_path rs) ->
  (forall r, In r rs -> id_taken (row_id r) t = false
                        /\ path_taken (row_path r) t = false) ->
  insert_rows rs t = Some (t ++ rs).
Proof.
  revert t. induction rs as [|r rs IH]; intros t Hi Hp Hfree.
  - cbn. now rewrite app_nil_r.
  - cbn [insert_rows map] in *.
    inversion Hi as [| ? ? Hri Hi']; inversion Hp as [| ? ? Hrp Hp']; subst.
    destruct (Hfree r (or_introl eq_refl)) as [Fi Fp].
    unfold insert_row. rewrite Fi, Fp. cbn [orb].
    rewrite IH; [now rewrite <- app_assoc | exact Hi' | exact Hp' |].
    intros x Hx. destruct (Hfree x (or_intror Hx)) as [Fxi Fxp].
    rewrite id_taken_app, path_taken_app, Fxi, Fxp. cbn [orb id_taken path_taken existsb].
    rewrite !orb_false_r. split; apply String.eqb_neq; intros E.
    + apply Hri. rewrite E. now apply in_map.
    + apply Hrp. rewrite E. now apply in_map.
Qed.

Lemma append_inv_head (a b c : string) : (a ++ b = a ++ c)%string -> b = c.
Proof.
  induction a as [|x a IH]; cbn; [auto |]. intros [= E]. now apply IH.
Qed.

Lemma startswith_take_drop (p x : string) :
  startswith p x = true -> x = (p ++ drop (String.length p) x)%string.
Proof.
  intros H. apply startswith_inv in H as [t ->]. now rewrite drop_append.
Qed.

Lemma lies_under_startswith (path x : string) :
  lies_under path x = true -> startswith path x = true.
Proof.
  unfold lies_under, dir_prefix.
  destruct (is_empty path || endswith_char sep path); [auto |].
  apply startswith_prefix.
Qed.

Lemma normalize_nonempty (path : string) : is_empty (_normalize_path path) = false.
Proof.
  unfold _normalize_path, normcase, normpath.
  destruct (is_empty path); [reflexivity |].
  now destruct (is_empty (slashes _ ++ Str.join "/" _)%string) eqn:E.
Qed.

Lemma in_drawn_ids (c : Connection) (paths : list string) (i : string) :
  In i (map row_id (drawn_rows (entropy c) (drawn c) paths)) ->
  exists j, j < length paths /\ i = draw_id c j.
Proof.
  rewrite drawn_rows_ids. intros H.
  apply in_map_iff in H as (x & <- & Hx). apply in_seq in Hx.
  exists (x - drawn c). split; [lia |].
  unfold draw_id. do 3 f_equal. lia.
Qed.

Lemma drawn_ids_NoDup (c : Connection) (paths : list string) (n : nat) :
  length paths <= n ->
  (forall j k, j < n -> k < n -> draw_id c j = draw_id c k -> j = k) ->
  NoDup (map row_id (drawn_rows (entropy c) (drawn c) paths)).
Proof.
  intros Hlen Hinj. rewrite drawn_rows_ids.
  apply NoDup_map_inj_on; [apply seq_NoDup |].
  intros x y Hx Hy E. apply in_seq in Hx, Hy.
  assert (x - drawn c = y - drawn c); [| lia].
  apply Hinj; try lia. unfold draw_id.
  now replace (drawn c + (x - drawn c)) with x by lia;
    replace (drawn c + (y - drawn c)) with y by lia.
Qed.

Lemma drawn_rows_ids_ok (e : nat -> N) (k : nat) (paths : list string) :
  ids_ok (drawn_rows e k paths).
Proof.
  revert k. induction paths as [|p ps IH]; intros k; constructor.
  - apply canonical_hex, uuid4_range.
  - apply IH.
Qed.

(** the paths of the copies start with [to_path] and differ from it and
    from one another *)
Lemma rebase_under (from_path to_path : string) (r : Row) :
  endswith_char sep from_path = false -> is_empty from_path = false ->
  nul_free (row_path r) = true ->
  lies_under from_path (row_path r) = true ->
  exists rest, rebase from_path to_path r = (to_path ++ "/" ++ rest)%string
               /\ row_path r = (from_path ++ "/" ++ rest)%string.
Proof.
  intros Hend Hne Hnul H. unfold lies_under, dir_prefix in H. rewrite Hend, Hne in H.
  cbn [orb] in H. apply startswith_inv in H as [rest E].
  rewrite append_assoc in E. exists rest. split; [| exact E].
  rewrite rebase_drop, (GlobFacts.cstr_nul_free _ Hnul), E.
  now rewrite drop_append.
Qed.



(** [copy] with [recursive=True] returns when nothing stands in its way:
    no path holds a NUL, no stored path starts with [to_path], and the
    identifiers drawn (one for each descendant, one for [from_path] if it
    has no record, one for [to_path]) are new and differ from one
    another *)
Lemma copy_recursive_returns (from_path to_path : string) (c : Connection) :
  glob_free (_normalize_path from_path) = true ->
  nul_free (_normalize_path from_path) = true ->
  (forall r, In r (rows c) -> nul_free (row_path r) = true) ->
  endswith_char sep (_normalize_path from_path) = false ->
  one_record_per_path (rows c) -> ids_ok (rows c) ->
  _normalize_path from_path <> _normalize_path to_path ->
  (forall r, In r (rows c) ->
             startswith (_normalize_path to_path) (row_path r) = false) ->
  (forall j k,
     j < length (descendants (_normalize_path from_path) (rows c)) + 2 ->
     k < length (descendants (_normalize_path from_path) (rows c)) + 2 ->
     draw_id c j = draw_id c k -> j = k) ->
  (forall k,
     k < length (descendants (_normalize_path from_path) (rows c)) + 2 ->
     id_taken (draw_id c k) (rows c) = false) ->
  exists i c', copy from_path to_path true c = Ok i c'.
Proof.
  set (f := _normalize_path from_path). set (t := _normalize_path to_path).
  set (n := length (descendants f (rows c))).
  intros Hfree Hnul Hrnul Hend Hpaths Hids Hft Hto Hinj Hnew.
  pose proof (normalize_nonempty from_path) as Hne. fold f in Hne.
  set (desc := filter (under f) (index_scan (rows c))).
  set (paths := map (rebase f t) desc).
  set (rs := drawn_rows (entropy c) (drawn c) paths).
  assert (Hdesc : forall r, In r desc ->
            In r (rows c) /\ lies_under f (row_path r) = true).
  { intros r Hr. apply filter_In in Hr as [Hr Hu].
    apply (proj1 (In_index_scan _ _)) in Hr.
    now rewrite (under_lies_under _ _ Hfree Hnul) in Hu. }
  assert (Hlen : length paths = n).
  { unfold paths, desc, n. rewrite length_map, length_filter_index_scan.
    now rewrite (descendants_under _ _ Hfree Hnul). }
  (* the paths of the copies are not in the table *)
  assert (Hpfree : forall p, In p paths ->
            path_taken p (rows c) = false /\ p <> t /\ p <> f
            \/ path_taken p (rows c) = false /\ p <> t).
  { intros p Hp. right. apply in_map_iff in Hp as (r & <- & Hr).
    destruct (Hdesc r Hr) as [Hrin Hu].
    destruct (rebase_under f t r Hend Hne (Hrnul r Hrin) Hu) as (rest & -> & _).
    split.
    - apply path_taken_free. intros Hin.
      apply in_map_iff in Hin as (x & Hx & Hxin).
      specialize (Hto x Hxin). rewrite Hx, startswith_append in Hto. discriminate.
    - intros E. rewrite <- (append_nil_r t) in E at 2.
      apply append_inv_head in E. discriminate. }
  assert (Hpnd : NoDup paths).
  { unfold paths. apply NoDup_map_inj_on.
    - apply (NoDup_map_inv row_path). apply NoDup_map_filter.
      apply (Permutation_NoDup (l := map row_path (rows c))); [| exact Hpaths].
      symmetry. apply Permutation_map, index_scan_perm.
    - intros x y Hx Hy E.
      destruct (Hdesc x Hx) as [Hxin Hxu]. destruct (Hdesc y Hy) as [Hyin Hyu].
      destruct (rebase_under f t x Hend Hne (Hrnul x Hxin) Hxu) as (rx & Ex & Epx).
      destruct (rebase_under f t y Hend Hne (Hrnul y Hyin) Hyu) as (ry & Ey & Epy).
      rewrite Ex, Ey in E. apply append_inv_head in E. injection E as ->.
      apply (NoDup_map_inj row_path (rows c));
        [exact Hpaths | exact Hxin | exact Hyin | congruence]. }
  (* the identifiers of the copies are new *)
  assert (Hrs_new : forall m, n <= m -> m < n + 2 ->
            id_taken (draw_id c m) (rows c ++ rs) = false).
  { intros m Hm1 Hm2. rewrite id_taken_app, (Hnew m Hm2). cbn [orb].
    apply id_taken_free. intros Hin.
    apply in_drawn_ids in Hin as (j & Hj & E). rewrite Hlen in Hj.
    apply Hinj in E; lia. }
  assert (Hins : insert_rows rs (rows c) = Some (rows c ++ rs)).
  { apply insert_rows_fresh.
    - apply (drawn_ids_NoDup c paths (n + 2)); [lia | exact Hinj].
    - unfold rs. now rewrite drawn_rows_paths.
    - intros r Hr. split.
      + assert (Hin : In (row_id r) (map row_id rs)) by now apply in_map.
        apply in_drawn_ids in Hin as (j & Hj & ->). apply Hnew. lia.
      + assert (Hin : In (row_path r) paths).
        { unfold rs in Hr. rewrite <- (drawn_rows_paths (entropy c) (drawn c) paths).
          now apply in_map. }
        destruct (Hpfree _ Hin) as [[H _] | [H _]]; exact H. }
  assert (Hto_free : path_taken t (rows c ++ rs) = false).
  { rewrite path_taken_app. apply orb_false_iff. split.
    - apply path_taken_free. intros Hin.
      apply in_map_iff in Hin as (x & Hx & Hxin).
      specialize (Hto x Hxin). rewrite Hx in Hto.
      rewrite <- (append_nil_r t) in Hto at 2.
      rewrite startswith_append in Hto. discriminate.
    - apply path_taken_free. unfold rs. rewrite drawn_rows_paths.
      intros Hin. destruct (Hpfree _ Hin) as [(_ & H & _) | [_ H]]; now apply H. }
  unfold copy. fold f t. unfold bind at 1. cbv beta. unfold bind at 1.
  fold desc paths. rewrite new_uuid_rows_unfold. fold rs.
  unfold execute. cbn [rows]. rewrite Hins. rewrite Hlen.
  set (c1 := set_rows (rows c ++ rs)
               (mkCon (rows c) (committed c) (entropy c) (drawn c + n))).
  assert (Hid1 : hex (next_uuid c1) = draw_id c n) by reflexivity.
  assert (Hids1 : ids_ok (rows c1)).
  { apply ids_ok_app. split; [exact Hids | apply drawn_rows_ids_ok]. }
  unfold bind at 1.
  destruct (get_id_ok f c1 Hids1) as [[j |] Hg].
  - rewrite (index_existing _ _ _ Hg).
    unfold bind. rewrite _index_unfold, Hid1. cbn [rows c1 set_rows].
    rewrite Hrs_new by lia. rewrite Hto_free. cbn [orb].
    unfold commit, ret. now do 2 eexists.
  - rewrite (index_new _ _ Hg), Hid1. cbn [rows c1 set_rows].
    rewrite Hrs_new by lia.
    unfold bind. rewrite _index_unfold. cbn [rows].
    unfold next_uuid. cbn [entropy drawn c1 set_rows].
    replace (hex (uuid4_of_random (entropy c (S (drawn c + n)))))
      with (draw_id c (n + 1))
      by (unfold draw_id; do 3 f_equal; lia).
    rewrite id_taken_app, path_taken_app, Hrs_new, Hto_free by lia.
    cbn [id_taken path_taken existsb row_id row_path orb].
    assert (Hff : _normalize_path f = f) by apply normalize_idempotent.
    rewrite !Hff.
    destruct (String.eqb f t) eqn:Eft; [apply String.eqb_eq in Eft; contradiction |].
    destruct (String.eqb (draw_id c n) (draw_id c (n + 1))) eqn:Ed.
    + apply String.eqb_eq, Hinj in Ed; lia.
    + cbn [orb]. unfold commit, ret. now do 2 eexists.
Qed.

End ManagerFacts.

(** * The claims of the specification *)

Module Claims.
Import Str StrFacts Uuid UuidFacts PosixPath PathFacts Sqlite TableFacts.
Import FileIdManager Spec ManagerFacts.
Local Open Scope list_scope.

(** ** Identifier validation *)




(** ** Duplicate paths *)

(** C4, as the code has it: the identifier is read before the statement
    runs, so on an indexed path an unreadable identifier gives
    [ValueError], not the uniqueness error. *)
Lemma duplicate_path_with_bad_identifier :
  path_taken (_normalize_path "x/y.txt")
    (rows (con_of_rows [mkRow "00000000000040008000000000000000" "x/y.txt"]))
  = true /\
  insert "x/y.txt" (FidStr "not-a-uuid")
    (con_of_rows [mkRow "00000000000040008000000000000000" "x/y.txt"])
  = Raise ValueError
      (con_of_rows [mkRow "00000000000040008000000000000000" "x/y.txt"]).
Proof. split; reflexivity. Qed.

(** C4 (amended): when the normalized path already has a record and the
    identifier argument is absent, empty, a UUID object or a readable
    string, [insert] raises [IntegrityError] and the table, committed or
    not, is as before. *)
Theorem duplicate_path_rejected (path : string) (fid : fid_arg) (c : Connection) :
  path_taken (_normalize_path path) (rows c) = true ->
  readable fid = true ->
  exists c', insert path fid c = Raise IntegrityError c'
             /\ rows c' = rows c /\ committed c' = committed c.
Proof.
  intros Htaken Hfid.
  assert (Hins : forall u c0, rows c0 = rows c ->
            _insert (hex u) (_normalize_path path) c0 = Raise IntegrityError c0).
  { intros u c0 E. unfold _insert, execute, insert_row. cbn [row_id row_path].
    rewrite E, Htaken. now rewrite orb_true_r. }
  unfold insert, bind.
  destruct fid as [| s | u]; cbn [falsy readable] in *.
  - exists (after_draw c). unfold uuid4. fold (after_draw c).
    rewrite Hins by reflexivity. now repeat split.
  - destruct (is_empty s).
    + exists (after_draw c). unfold uuid4. fold (after_draw c).
      rewrite Hins by reflexivity. now repeat split.
    + cbn [orb] in Hfid. destruct (of_string s) as [u |]; [| discriminate].
      exists c. unfold ret. rewrite Hins by reflexivity. now repeat split.
  - exists c. unfold ret. rewrite Hins by reflexivity. now repeat split.
Qed.

(** the scenario of the specification: [insert("x/y.txt", id=<fixed-id>)]
    on a fresh database, then [insert("x/y.txt")] *)
Lemma duplicate_path_rejected_witness :
  exists c1,
    insert "x/y.txt" (FidStr "12345678-1234-5678-1234-567812345678") fresh_con
    = Ok "12345678-1234-5678-1234-567812345678" c1
    /\ path_taken (_normalize_path "x/y.txt") (rows c1) = true
    /\ readable FidNone = true
    /\ exists c2, insert "x/y.txt" FidNone c1 = Raise IntegrityError c2
                  /\ rows c2 = rows c1 /\ committed c2 = committed c1.
Proof.
  eexists. split; [reflexivity |].
  split; [reflexivity |]. split; [reflexivity |].
  apply (duplicate_path_rejected "x/y.txt" FidNone); reflexivity.
Defined.

(** ** [index] *)

(** C5: [index] is idempotent.  (1) On a path that has a record it
    returns the identifier [get_id] reports and leaves the connection as
    it is.  (2) Whatever [index] answered, calling it again on the
    connection it left gives the same identifier and the same connection,
    so a second, a third and any later call return that identifier.  (3) On
    a path without record it does not fail, the store permitting: that is,
    when the identifier drawn is not already a primary key. *)
Theorem index_idempotent (path : string) (c : Connection) :
  (forall i, get_id path c = Ok (Some i) c -> index path c = Ok i c)
  /\ (forall i c1, index path c = Ok i c1 -> index path c1 = Ok i c1)
  /\ (get_id path c = Ok None c ->
      id_taken (hex (next_uuid c)) (rows c) = false ->
      exists c1, index path c = Ok (str (next_uuid c)) c1
                 /\ get_id path c1 = Ok (Some (str (next_uuid c))) c1).
Proof.
  split; [| split].
  - intros i. apply index_existing.
  - intros i c1. apply index_again.
  - intros Hnone Hfree. rewrite (index_new _ _ Hnone), Hfree.
    eexists. split; [reflexivity |].
    rewrite get_id_unfold. cbn [rows].
    apply get_id_none_inv, select_id_none in Hnone.
    rewrite (select_id_snoc _ _ _ Hnone). cbn [row_path row_id].
    rewrite String.eqb_refl, of_string_hex by apply next_uuid_range.
    reflexivity.
Qed.

(** three calls of [index("a/b.txt")] on a fresh database *)
Lemma index_idempotent_witness :
  exists c1,
    index "a/b.txt" fresh_con = Ok "00000000-0000-4000-8000-000000000000" c1
    /\ index "a/b.txt" c1 = Ok "00000000-0000-4000-8000-000000000000" c1
    /\ (index "a/b.txt" ;;; index "a/b.txt" ;;; index "a/b.txt") fresh_con
       = Ok "00000000-0000-4000-8000-000000000000" c1.
Proof.
  destruct (index_idempotent "a/b.txt" fresh_con) as (_ & Hagain & Hnew).
  destruct (Hnew eq_refl eq_refl) as (c1 & H1 & _).
  change (str (next_uuid fresh_con))
    with "00000000-0000-4000-8000-000000000000"%string in H1.
  exists c1. pose proof (Hagain _ _ H1) as H2.
  split; [exact H1 |]. split; [exact H2 |].
  unfold bind. now rewrite H1, H2, H2.
Defined.

(** ** Round trip *)

(** C6, at the input where the code departs from it: [index("a/b.txt")],
    then [move("a", ".", recursive=True)].  The subtree rewrite glues
    [new_path] and the tail of the old path together, here into
    ["./b.txt"], which is not in normal form; the record still exists and
    [get_path] returns that path, but [get_id] normalizes its argument to
    ["b.txt"] and finds nothing. *)
Theorem round_trip_lost_after_move_to_dot :
  exists c1 c2 root_id,
    index "a/b.txt" fresh_con = Ok "00000000-0000-4000-8000-000000000000" c1
    /\ move "a" "." true c1 = Ok root_id c2
    /\ get_path "00000000-0000-4000-8000-000000000000" c2
       = Ok (Some "./b.txt"%string) c2
    /\ get_id "./b.txt" c2 = Ok None c2.
Proof. do 3 eexists. repeat split; reflexivity. Qed.

(** ** [delete] *)




(** ** [move]: the record of [old_path] itself *)




(** ** Uniqueness *)

(** C9: every public operation, whether it returns or raises, leaves a
    connection whose table and whose committed table each hold at most
    one record per identifier and at most one per path, provided it
    started from such a connection; in such tables two records have the
    same identifier exactly when they have the same path. *)
Theorem uniqueness_preserved (k : call) (c : Connection) :
  good c ->
  good (run k c)
  /\ record_bijection (rows (run k c))
  /\ record_bijection (committed (run k c)).
Proof.
  intros Hc.
  pose proof (run_consistent k c Hc) as H.
  split; [exact H |]. destruct H as [Hr Hcm].
  split; now apply consistent_bijection.
Qed.

Lemma uniqueness_preserved_witness :
  good (con_of_rows [mkRow "00000000000040008000000000000000" "a/b.txt"])
  /\ good (run (CallCopy "a" "b" true)
             (con_of_rows [mkRow "00000000000040008000000000000000" "a/b.txt"])).
Proof.
  assert (Hgood : good (con_of_rows
                          [mkRow "00000000000040008000000000000000" "a/b.txt"])).
  { repeat split; (constructor; [intros [] | constructor]). }
  split; [exact Hgood |].
  exact (proj1 (uniqueness_preserved (CallCopy "a" "b" true) _ Hgood)).
Defined.

(** ** [copy] onto an indexed destination *)



(** ** [copy] of a subtree *)




(** ** [move] of a subtree *)

(** C1, at an input where the code departs from it: a directory named
    ["run[1]"] with a file in it, and a sibling directory ["run1"].
    [old_path] goes into the [GLOB] pattern as it is, so ["run[1]/*"]
    reads [[1]] as a bracket set: the record under ["run[1]"] is not
    rewritten, and the record under the sibling ["run1"], which the
    pattern matches, is: its path loses as many characters as [old_path]
    has and becomes ["z.txt"]. *)
Theorem move_subtree_glob_metacharacter :
  exists c1 c2,
    (index "run[1]/out.txt" ;;; index "run1/x.txt") fresh_con
    = Ok "00000000-0000-4000-8000-000000000001" c1
    /\ move "run[1]" "z" true c1 = Ok "00000000-0000-4000-8000-000000000002" c2
    /\ rows c2 = [mkRow "00000000000040008000000000000000" "run[1]/out.txt";
                  mkRow "00000000000040008000000000000001" "z.txt";
                  mkRow "00000000000040008000000000000002" "z"]
    /\ get_path "00000000-0000-4000-8000-000000000000" c2
       = Ok (Some "run[1]/out.txt"%string) c2
    /\ get_id "run1/x.txt" c2 = Ok None c2.
Proof. do 2 eexists. repeat split; reflexivity. Qed.

End Claims.

(** * Further properties of the manager *)

Module ExtraFacts.
Import Str StrFacts Uuid UuidFacts PosixPath PathFacts Sqlite TableFacts.
Import FileIdManager Spec ManagerFacts.
Local Open Scope list_scope.

(** what a returning [insert] has done *)
Lemma insert_ok_inv (path i : string) (fid : fid_arg) (c c1 : Connection) :
  insert path fid c = Ok i c1 ->
  exists u,
    (u < bits128)%N /\ i = str u
    /\ id_taken (hex u) (rows c) = false
    /\ path_taken (_normalize_path path) (rows c) = false
    /\ rows c1 = rows c ++ [mkRow (hex u) (_normalize_path path)]
    /\ committed c1 = rows c1
    /\ (forall s, fid = FidStr s -> is_empty s = false -> of_string s = Some u)
    /\ (forall v, fid = FidUUID v -> int v = u).
Proof.
  assert (Hins : forall u c0 i0 c2,
            (u < bits128)%N -> rows c0 = rows c ->
            (_insert (hex u) (_normalize_path path) ;;; commit ;;; ret (str u)) c0
            = Ok i0 c2 ->
            i0 = str u
            /\ id_taken (hex u) (rows c) = false
            /\ path_taken (_normalize_path path) (rows c) = false
            /\ rows c2 = rows c ++ [mkRow (hex u) (_normalize_path path)]
            /\ committed c2 = rows c2).
  { intros u c0 i0 c2 Hu E. unfold bind, _insert, execute, commit, ret.
    destruct (insert_row _ (rows c0)) as [t |] eqn:Ei; [| discriminate].
    cbn. intros [= <- <-]. cbn [rows committed].
    rewrite E in Ei. apply insert_row_some in Ei as (Fi & Fp & ->).
    now repeat split. }
  unfold insert. unfold bind at 1.
  destruct fid as [| s | v]; cbn [falsy].
  - unfold uuid4. fold (next_uuid c). intros H.
    apply Hins in H as (-> & Fi & Fp & Hr & Hc); [| apply next_uuid_range | reflexivity].
    exists (next_uuid c). repeat split; try assumption; try apply next_uuid_range;
      intros; discriminate.
  - destruct (is_empty s) eqn:Es.
    + unfold uuid4. fold (next_uuid c). intros H.
      apply Hins in H as (-> & Fi & Fp & Hr & Hc); [| apply next_uuid_range | reflexivity].
      exists (next_uuid c). repeat split; try assumption; try apply next_uuid_range.
      * intros s0 [= <-] E. rewrite Es in E. discriminate.
      * intros; discriminate.
    + destruct (of_string s) as [u |] eqn:Eu; [| discriminate].
      unfold ret at 1. intros H. pose proof (of_string_range _ _ Eu) as Hu.
      apply Hins in H as (-> & Fi & Fp & Hr & Hc); [| exact Hu | reflexivity].
      exists u. repeat split; try assumption.
      * now intros s0 [= <-] _.
      * intros; discriminate.
  - unfold ret at 1. intros H.
    assert (Hu : (int v < bits128)%N) by apply N.ltb_lt, int_range.
    apply Hins in H as (-> & Fi & Fp & Hr & Hc); [| exact Hu | reflexivity].
    exists (int v). repeat split; try assumption.
    + intros; discriminate.
    + now intros v0 [= <-].
Qed.

(** a record just appended is found by either column *)
Lemma appended_found (u : N) (p : string) (c1 : Connection) (t : Table) :
  (u < bits128)%N ->
  id_taken (hex u) t = false -> path_taken p t = false ->
  rows c1 = t ++ [mkRow (hex u) p] ->
  _normalize_path p = p ->
  get_path (str u) c1 = Ok (Some p) c1
  /\ get_id p c1 = Ok (Some (str u)) c1.
Proof.
  intros Hu Fi Fp Hr Hn. split.
  - unfold get_path, fetchone. rewrite (of_string_str _ Hu), Hr.
    apply select_path_none in Fi. rewrite (select_path_snoc _ _ _ Fi).
    cbn [row_id row_path]. now rewrite String.eqb_refl.
  - rewrite get_id_unfold, Hn, Hr.
    apply select_id_none in Fp. rewrite (select_id_snoc _ _ _ Fp).
    cbn [row_id row_path]. now rewrite String.eqb_refl, (of_string_hex _ Hu).
Qed.

(** a lookup by path sees no difference when the rows are rewritten in a
    way that keeps identifiers and keeps which rows have that path *)
Lemma select_id_map_frame (g : Row -> Row) (p : string) (t : Table) :
  (forall x, In x t ->
     row_id (g x) = row_id x
     /\ String.eqb (row_path (g x)) p = String.eqb (row_path x) p) ->
  select_id p (map g t) = select_id p t.
Proof.
  unfold select_id. induction t as [|x t IH]; intros H; [reflexivity |].
  cbn [map find]. destruct (H x (or_introl eq_refl)) as [Hi Hp].
  rewrite Hp. destruct (String.eqb (row_path x) p); [now rewrite Hi |].
  apply IH. intros y Hy. apply H. now right.
Qed.

Lemma get_id_same_select (q : string) (c c' : Connection) (o : option string) :
  select_id (_normalize_path q) (rows c') = select_id (_normalize_path q) (rows c) ->
  get_id q c = Ok o c -> get_id q c' = Ok o c'.
Proof.
  intros E. rewrite !get_id_unfold, E.
  destruct (select_id _ (rows c)) as [j |].
  - destruct (of_string j); [| discriminate]. now intros [= <-].
  - now intros [= <-].
Qed.

(** [move] without [recursive] on a path that has a record, to a path
    that has none *)
Lemma move_existing (old_path new_path i : string) (c : Connection) :
  ids_ok (rows c) -> one_record_per_id (rows c) ->
  get_id old_path c = Ok (Some i) c ->
  path_taken (_normalize_path new_path) (rows c) = false ->
  exists r u,
    In r (rows c) /\ row_path r = _normalize_path old_path
    /\ row_id r = hex u /\ (u < bits128)%N /\ i = str u
    /\ move old_path new_path false c
       = Ok i (committed_now
                 (set_rows (map (renamed (hex u) (_normalize_path new_path))
                                (rows c)) c)).
Proof.
  intros Hids Hone Hsome Hnew.
  destruct (get_id_some_inv _ _ _ _ Hsome) as (_ & r & u & Hin & Hp & Hu & ->).
  unfold ids_ok in Hids. rewrite Forall_forall in Hids.
  destruct (canonical_id_inv _ (Hids r Hin)) as (u' & Hr & Hu' & Hid).
  rewrite Hu in Hu'. injection Hu' as <-.
  exists r, u. repeat (split; [assumption || reflexivity |]).
  unfold move, bind, ret at 1.
  rewrite get_id_normalized, Hsome, (of_string_str _ Hr).
  unfold execute, update_path.
  rewrite (update_by_id_free (hex u) (_normalize_path new_path) [] (rows c) Hone Hnew).
  reflexivity.
Qed.

Lemma same_id_same_row (r x : Row) (t : Table) :
  one_record_per_id t -> In r t -> In x t ->
  String.eqb (row_id x) (row_id r) = true -> x = r.
Proof.
  intros Hone Hr Hx E. apply String.eqb_eq in E.
  now apply (NoDup_map_inj row_id t).
Qed.

(** [UPDATE Files SET path = p WHERE id = i] fails when [p] belongs to
    another row *)
Lemma update_by_id_taken (i p : string) (done todo : Table) :
  (exists x, In x (done ++ todo) /\ row_path x = p) ->
  (forall r, In r todo -> row_id r = i -> row_path r <> p) ->
  (exists r, In r todo /\ row_id r = i) ->
  update_from (fun r => String.eqb (row_id r) i) (fun _ => p) done todo = None.
Proof.
  revert done. induction todo as [|r rest IH]; intros done Hx Hsel Hex.
  - destruct Hex as (r & [] & _).
  - cbn [update_from]. destruct (String.eqb (row_id r) i) eqn:E.
    + apply String.eqb_eq in E.
      assert (Ht : path_taken p (done ++ rest) = true); [| now rewrite Ht].
      apply path_taken_In. destruct Hx as (x & Hin & Hp).
      apply in_map_iff. exists x. split; [exact Hp |].
      apply in_app_iff in Hin as [Hin | [<- | Hin]]; apply in_app_iff; auto.
      exfalso. now apply (Hsel r (or_introl eq_refl)).
    + apply IH.
      * destruct Hx as (x & Hin & Hp). exists x. split; [| exact Hp].
        rewrite <- app_assoc. exact Hin.
      * intros y Hy. apply Hsel. now right.
      * destruct Hex as (y & [<- | Hy] & Hi).
        -- apply String.eqb_neq in E. contradiction.
        -- now exists y.
Qed.

(** renaming a row to the path it has changes nothing *)
Lemma update_by_id_same (r : Row) (done todo : Table) :
  one_record_per_id (done ++ todo) -> one_record_per_path (done ++ todo) ->
  In r todo ->
  update_from (fun x => String.eqb (row_id x) (row_id r)) (fun _ => row_path r)
    done todo
  = Some (done ++ todo).
Proof.
  unfold one_record_per_id, one_record_per_path.
  revert done. induction todo as [|x rest IH]; intros done Hone Hpaths Hr;
    [destruct Hr |].
  cbn [update_from]. destruct (String.eqb (row_id x) (row_id r)) eqn:E.
  - apply String.eqb_eq in E.
    assert (x = r).
    { apply (NoDup_map_inj row_id (done ++ x :: rest)); try assumption.
      - apply in_app_iff. right. now left.
      - apply in_app_iff. now right. }
    subst x.
    assert (Hfree : path_taken (row_path r) (done ++ rest) = false).
    { apply path_taken_free. rewrite map_app in *. cbn [map] in Hpaths.
      now apply NoDup_remove_2 in Hpaths. }
    rewrite Hfree.
    replace (mkRow (row_id r) (row_path r)) with r by now destruct r.
    rewrite update_from_none_selected; [now rewrite <- app_assoc |].
    intros y Hy. apply String.eqb_neq. intros Ey.
    rewrite map_app in Hone. cbn [map] in Hone.
    apply NoDup_remove_2 in Hone. apply Hone.
    apply in_app_iff. right. rewrite <- Ey. now apply in_map.
  - rewrite IH; [now rewrite <- app_assoc | | |].
    + now rewrite <- app_assoc.
    + now rewrite <- app_assoc.
    + destruct Hr as [<- | Hr]; [| exact Hr].
      rewrite String.eqb_refl in E. discriminate.
Qed.

Lemma select_id_app_found (p i : string) (t t2 : Table) :
  select_id p t = Some i -> select_id p (t ++ t2) = Some i.
Proof.
  unfold select_id. induction t as [|x t IH]; [discriminate |].
  cbn [app find]. destruct (String.eqb (row_path x) p); [auto | exact IH].
Qed.

Lemma select_path_app_found (i p : string) (t t2 : Table) :
  select_path i t = Some p -> select_path i (t ++ t2) = Some p.
Proof.
  unfold select_path. induction t as [|x t IH]; [discriminate |].
  cbn [app find]. destruct (String.eqb (row_id x) i); [auto | exact IH].
Qed.

Lemma select_id_app_other (p : string) (r : Row) (t : Table) :
  row_path r <> p -> select_id p (t ++ [r]) = select_id p t.
Proof.
  intros H. unfold select_id. induction t as [|x t IH].
  - cbn. apply String.eqb_neq in H. now rewrite H.
  - cbn [app find]. destruct (String.eqb (row_path x) p); [reflexivity | exact IH].
Qed.

(** a lookup by path is not affected by a [DELETE] that keeps the rows of
    that path *)
Lemma select_id_delete_frame (sel : Row -> bool) (p : string) (t : Table) :
  (forall x, In x t -> row_path x = p -> sel x = false) ->
  select_id p (delete_where sel t) = select_id p t.
Proof.
  unfold select_id, delete_where. induction t as [|x t IH]; intros H; [reflexivity |].
  cbn [filter find].
  destruct (String.eqb (row_path x) p) eqn:E.
  - apply String.eqb_eq in E. rewrite (H x (or_introl eq_refl) E).
    cbn [negb find]. apply String.eqb_eq in E. now rewrite E.
  - destruct (negb (sel x)); cbn [find]; [rewrite E |];
      apply IH; intros y Hy; apply H; now right.
Qed.

Lemma bind_ok_inv {A B} (m : M A) (k : A -> M B) (b : B) (c c' : Connection) :
  bind m k c = Ok b c' -> exists a c1, m c = Ok a c1 /\ k a c1 = Ok b c'.
Proof.
  unfold bind. destruct (m c) as [a c1 | e c1]; [| discriminate].
  intros H. now exists a, c1.
Qed.

Lemma commit_ret_inv {A} (a b : A) (c1 c' : Connection) :
  (commit ;;; ret a) c1 = Ok b c' -> b = a /\ c' = committed_now c1.
Proof. unfold bind, commit, ret. now intros [= <- <-]. Qed.

(** after [index] returns, [get_id] finds the identifier it returned *)
Lemma index_get_id (path i : string) (c c1 : Connection) :
  index path c = Ok i c1 -> get_id path c1 = Ok (Some i) c1.
Proof.
  intros H.
  destruct (get_id_cases path c) as [[[j |] Hg] | Hg].
  - rewrite (index_existing _ _ _ Hg) in H. now injection H as <- <-.
  - rewrite (index_new _ _ Hg) in H.
    destruct (id_taken _ _) eqn:Ei; [discriminate |].
    injection H as <- <-.
    rewrite get_id_unfold. cbn [rows].
    apply get_id_none_inv, select_id_none in Hg.
    rewrite (select_id_snoc _ _ _ Hg). cbn [row_path row_id].
    rewrite String.eqb_refl, of_string_hex by apply next_uuid_range.
    reflexivity.
  - unfold index, bind in H. rewrite get_id_normalized, Hg in H. discriminate.
Qed.

(** an identifier read by [get_id] differs, as a string, from the string
    of an identifier no record holds *)
Lemma get_id_other_than_free (path k : string) (u : N) (c : Connection) :
  ids_ok (rows c) -> (u < bits128)%N ->
  id_taken (hex u) (rows c) = false ->
  get_id path c = Ok (Some k) c -> k <> str u.
Proof.
  intros Hids Hu Hfree Hg ->.
  apply get_id_some_inv in Hg as (_ & r & v & Hin & _ & Hv & E).
  unfold ids_ok in Hids. rewrite Forall_forall in Hids.
  destruct (canonical_id_inv _ (Hids r Hin)) as (w & Hw & Hof & Hid).
  assert (w = v) by congruence. subst w.
  apply str_inj in E; [| exact Hu | exact Hw]. subst v.
  apply id_taken_free in Hfree. apply Hfree.
  rewrite <- Hid. now apply in_map.
Qed.



(** [get_path] reads the string of any identifier *)
Lemma get_path_of_str (u : N) (c : Connection) :
  (u < bits128)%N -> exists o, get_path (str u) c = Ok o c.
Proof.
  intros Hu. unfold get_path, fetchone. rewrite (of_string_str _ Hu). now eexists.
Qed.

(** what [get_id] returns is the string of an identifier *)
Lemma get_id_returns_str (path i : string) (c c' : Connection) :
  get_id path c = Ok (Some i) c' -> exists u, (u < bits128)%N /\ i = str u.
Proof.
  intros H. apply get_id_some_inv in H as (_ & r & u & _ & _ & Hu & ->).
  exists u. split; [now apply of_string_range in Hu | reflexivity].
Qed.

(** so is what [move] returns *)
Lemma move_returns_str (old_path new_path i : string) (recursive : bool)
    (c c' : Connection) :
  move old_path new_path recursive c = Ok i c' ->
  exists u, (u < bits128)%N /\ i = str u.
Proof.
  intros H. unfold move in H. cbv zeta in H.
  apply bind_ok_inv in H as (_ & c1 & _ & H).
  apply bind_ok_inv in H as (fid & c2 & Hg & H).
  apply bind_ok_inv in H as (j & c3 & Hj & H).
  apply commit_ret_inv in H as [-> _].
  destruct fid as [fid |].
  - destruct (get_id_returns_str _ _ _ _ Hg) as (u & Hu & ->).
    rewrite (of_string_str _ Hu) in Hj.
    apply bind_ok_inv in Hj as (_ & c4 & _ & Hj).
    unfold ret in Hj. injection Hj as <- _. now exists u.
  - apply bind_ok_inv in Hj as (a & c4 & Ha & Hj).
    apply bind_ok_inv in Hj as (_ & c5 & _ & Hj).
    unfold ret in Hj. injection Hj as <- _.
    unfold uuid4 in Ha. injection Ha as <- _.
    eexists. split; [apply uuid4_range | reflexivity].
Qed.

End ExtraFacts.

Module Extras.
Import Str StrFacts Uuid UuidFacts PosixPath PathFacts Sqlite TableFacts.
Import FileIdManager Spec ManagerFacts ExtraFacts.
Local Open Scope list_scope.

(** ** [_normalize_path] *)

(** X1: normalizing a normalized path changes nothing. *)
Theorem normalize_path_idempotent (path : string) :
  _normalize_path (_normalize_path path) = _normalize_path path.
Proof. apply normalize_idempotent. Qed.

(** X2: a normalized path is ["."] (so it is never empty, and the empty
    path becomes ["."]), or it is at most two leading slashes followed by
    components joined by single slashes, where no component is empty,
    is ["."] or holds a slash, and where a path with a leading slash has
    no [".."] component. *)
Theorem normalize_path_shape (path : string) :
  _normalize_path "" = "."%string
  /\ is_empty (_normalize_path path) = false
  /\ (_normalize_path path = "."%string
      \/ exists k comps,
           k <= 2
           /\ Forall (fun comp => clean_comp comp = true) comps
           /\ (0 < k -> Forall (fun comp => is_dotdot comp = false) comps)
           /\ _normalize_path path = (slashes k ++ Str.join "/" comps)%string).
Proof.
  split; [reflexivity |]. split; [apply normalize_nonempty |].
  unfold _normalize_path, normcase, normpath.
  destruct (is_empty path); [now left |].
  set (k := initial_slashes_of path).
  set (st := fold_left (norm_step k) (split sep path) []).
  assert (Hst : normal_stack k st = true).
  { apply fold_norm_step_normal; [apply split_sep_free |].
    unfold normal_stack. cbn. now destruct (Nat.eqb k 0). }
  destruct (is_empty (slashes k ++ Str.join "/" (rev st))%string); [now left |].
  right. exists k, (rev st). split; [apply initial_slashes_le |].
  split; [now apply (normal_stack_rev k) |]. split; [| reflexivity].
  intros Hk. unfold normal_stack in Hst. apply andb_true_iff in Hst as [_ Hst].
  destruct (Nat.eqb k 0) eqn:Ek; [apply Nat.eqb_eq in Ek; lia |].
  apply Forall_rev. apply Forall_forall. intros comp Hc.
  rewrite List.forallb_forall in Hst. apply negb_true_iff. now apply Hst.
Qed.

(** ** Identifiers *)

(** X3: [new_uuid()] never fails and touches no row; what it returns is
    32 lower-case hexadecimal digits that [uuid.UUID] reads back as the
    value drawn, so it can serve as an [id] of the table. *)
Theorem new_uuid_well_formed (c : Connection) :
  new_uuid c = Ok (hex (next_uuid c)) (after_draw c)
  /\ String.length (hex (next_uuid c)) = 32
  /\ Str.forallb lower_hex (hex (next_uuid c)) = true
  /\ of_string (hex (next_uuid c)) = Some (next_uuid c)
  /\ canonical_id (hex (next_uuid c)) = true.
Proof.
  split; [reflexivity |].
  split; [apply hex_digits_length |].
  split; [apply hex_digits_lower |].
  split; [apply of_string_hex, next_uuid_range |].
  apply canonical_hex, next_uuid_range.
Qed.

(** X4: on every connection a manager can be in (a database just
    created, then any sequence of public calls, returning or raising),
    [get_id] returns: it never raises [ValueError] over an identifier it
    cannot read back, and it leaves the connection as it is. *)
Theorem get_id_never_raises (path : string) (c : Connection) :
  reachable c -> exists o, get_id path c = Ok o c.
Proof.
  intros H. apply reachable_invariants in H as [_ [Hids _]].
  now apply get_id_ok.
Qed.

Lemma get_id_never_raises_witness :
  reachable (run (CallMove "a" "b" true) (run (CallIndex "a/b.txt") fresh_con))
  /\ exists o, get_id "b/b.txt"
                 (run (CallMove "a" "b" true) (run (CallIndex "a/b.txt") fresh_con))
               = Ok o (run (CallMove "a" "b" true)
                         (run (CallIndex "a/b.txt") fresh_con)).
Proof.
  assert (H : reachable (run (CallMove "a" "b" true)
                           (run (CallIndex "a/b.txt") fresh_con))).
  { apply reachable_run, reachable_run. apply reachable_created. }
  split; [exact H |].
  exact (get_id_never_raises "b/b.txt" _ H).
Defined.

(** ** Round trips *)

(** X5: right after [index] has returned an identifier for a path, on a
    table with unique and well-formed identifiers, [get_path] of that
    identifier is the normalized path and [get_id] of the path, however
    it is spelled, is that identifier. *)
Theorem index_round_trip (path i : string) (c c1 : Connection) :
  consistent (rows c) -> ids_ok (rows c) ->
  index path c = Ok i c1 ->
  get_path i c1 = Ok (Some (_normalize_path path)) c1
  /\ get_id path c1 = Ok (Some i) c1.
Proof.
  intros Hcons Hids H.
  destruct (round_trip_after_index _ _ _ _ Hcons Hids H) as [Hp Hi].
  split; [exact Hp | now rewrite <- get_id_normalized].
Qed.

Lemma index_round_trip_witness :
  consistent (rows fresh_con) /\ ids_ok (rows fresh_con)
  /\ exists c1,
       index "a//b/../c.txt" fresh_con
       = Ok "00000000-0000-4000-8000-000000000000" c1
       /\ get_path "00000000-0000-4000-8000-000000000000" c1
          = Ok (Some "a/c.txt"%string) c1
       /\ get_id "a//b/../c.txt" c1
          = Ok (Some "00000000-0000-4000-8000-000000000000"%string) c1.
Proof.
  assert (Hcons : consistent (rows fresh_con)) by (split; constructor).
  assert (Hids : ids_ok (rows fresh_con)) by constructor.
  split; [exact Hcons |]. split; [exact Hids |].
  eexists. split; [reflexivity |].
  exact (index_round_trip "a//b/../c.txt" _ fresh_con _ Hcons Hids eq_refl).
Defined.

(** X6: when [insert] returns, it has appended one record and committed;
    the string it returns is the canonical form of the identifier used
    (the one given, however it was spelled, or the one drawn), and
    [get_path] of that string is the normalized path and [get_id] of the
    path is that string. *)
Theorem insert_round_trip (path i : string) (fid : fid_arg) (c c1 : Connection) :
  insert path fid c = Ok i c1 ->
  (exists u, (u < bits128)%N /\ i = str u
             /\ rows c1 = rows c ++ [mkRow (hex u) (_normalize_path path)]
             /\ (forall s, fid = FidStr s -> is_empty s = false ->
                           of_string s = Some u)
             /\ (forall v, fid = FidUUID v -> int v = u))
  /\ committed c1 = rows c1
  /\ get_path i c1 = Ok (Some (_normalize_path path)) c1
  /\ get_id path c1 = Ok (Some i) c1.
Proof.
  intros H.
  destruct (insert_ok_inv _ _ _ _ _ H)
    as (u & Hu & -> & Fi & Fp & Hr & Hc & Hs & Hv).
  split; [now exists u |]. split; [exact Hc |].
  rewrite <- get_id_normalized.
  apply (appended_found u _ c1 (rows c)); try assumption.
  apply normalize_idempotent.
Qed.

Lemma insert_round_trip_witness :
  exists c1,
    insert "x/./y.txt" (FidStr "{12345678-1234-5678-1234-567812345678}") fresh_con
    = Ok "12345678-1234-5678-1234-567812345678" c1
    /\ get_path "12345678-1234-5678-1234-567812345678" c1
       = Ok (Some "x/y.txt"%string) c1
    /\ get_id "x/./y.txt" c1
       = Ok (Some "12345678-1234-5678-1234-567812345678"%string) c1.
Proof.
  eexists. split; [reflexivity |].
  exact (proj2 (proj2 (insert_round_trip "x/./y.txt" _
                         (FidStr "{12345678-1234-5678-1234-567812345678}")
                         fresh_con _ eq_refl))).
Defined.

(** X7: an identifier that is already the primary key of a record cannot
    be given to a second one: [insert] with that identifier, as a string
    in any spelling [uuid.UUID] reads or as a UUID object, raises
    [IntegrityError] and leaves the connection as it was. *)
Theorem insert_duplicate_identifier (path : string) (fid : fid_arg) (u : N)
    (c : Connection) :
  id_taken (hex u) (rows c) = true ->
  ((exists s, fid = FidStr s /\ of_string s = Some u)
   \/ (exists v, fid = FidUUID v /\ int v = u)) ->
  insert path fid c = Raise IntegrityError c.
Proof.
  intros Htaken Hfid.
  assert (Hins : _insert (hex u) (_normalize_path path) c = Raise IntegrityError c).
  { unfold _insert, execute, insert_row. cbn [row_id row_path]. now rewrite Htaken. }
  unfold insert, bind.
  destruct Hfid as [(s & -> & Hs) | (v & -> & Hv)]; cbn [falsy].
  - destruct (is_empty s) eqn:Es.
    + destruct s; [discriminate Hs | discriminate Es].
    + rewrite Hs. unfold ret. now rewrite Hins.
  - unfold ret. rewrite Hv. now rewrite Hins.
Qed.

Lemma insert_duplicate_identifier_witness :
  id_taken (hex 5)
    (rows (con_of_rows [mkRow "00000000000000000000000000000005" "a"])) = true
  /\ insert "b" (FidStr "urn:uuid:00000000-0000-0000-0000-000000000005")
       (con_of_rows [mkRow "00000000000000000000000000000005" "a"])
     = Raise IntegrityError
         (con_of_rows [mkRow "00000000000000000000000000000005" "a"]).
Proof.
  split; [reflexivity |].
  apply (insert_duplicate_identifier "b" _ 5); [reflexivity |].
  left. eexists. split; reflexivity.
Defined.

(** ** [move] *)

(** X8: the identifier survives a rename.  On a table with unique and
    well-formed identifiers, [move] without [recursive] of a path that
    has the identifier [i] to a path that has no record returns [i] and
    commits; afterwards the new path has the identifier [i], [i] has the
    new path, the old path has no record, and every other path has the
    identifier it had. *)
Theorem move_renames_record (old_path new_path i : string) (c : Connection) :
  consistent (rows c) -> ids_ok (rows c) ->
  get_id old_path c = Ok (Some i) c ->
  path_taken (_normalize_path new_path) (rows c) = false ->
  exists c',
    move old_path new_path false c = Ok i c'
    /\ committed c' = rows c'
    /\ get_id new_path c' = Ok (Some i) c'
    /\ get_path i c' = Ok (Some (_normalize_path new_path)) c'
    /\ get_id old_path c' = Ok None c'
    /\ (forall q o,
          _normalize_path q <> _normalize_path old_path ->
          _normalize_path q <> _normalize_path new_path ->
          get_id q c = Ok o c -> get_id q c' = Ok o c').
Proof.
  intros [Hone Hpaths] Hids Hsome Hnew.
  destruct (move_existing _ new_path _ _ Hids Hone Hsome Hnew)
    as (r & u & Hin & Hp & Hid & Hu & -> & Hmove).
  set (old := _normalize_path old_path) in *.
  set (new := _normalize_path new_path) in *.
  set (t' := map (renamed (hex u) new) (rows c)) in *.
  assert (Hneq : old <> new).
  { intros E. apply path_taken_free in Hnew. apply Hnew.
    rewrite <- E, <- Hp. now apply in_map. }
  assert (Hcons' : consistent t').
  { apply (consistent_update_path
             (fun x => String.eqb (row_id x) (hex u)) (fun _ => new) (rows c));
      [now split |].
    apply (update_by_id_free (hex u) new [] (rows c) Hone Hnew). }
  assert (Hin' : In (mkRow (hex u) new) t').
  { apply in_map_iff. exists r. split; [| exact Hin].
    unfold renamed, updated. now rewrite Hid, String.eqb_refl. }
  assert (Hsel : forall x, In x (rows c) ->
            String.eqb (row_id x) (hex u) = true -> x = r).
  { intros x Hx E. rewrite <- Hid in E. now apply (same_id_same_row r x (rows c)). }
  eexists. split; [exact Hmove |]. cbn [rows committed committed_now set_rows].
  split; [reflexivity |]. destruct Hcons' as [Hone' Hpaths'].
  split; [| split; [| split]].
  - rewrite get_id_unfold. cbn [rows committed_now set_rows]. fold new.
    pose proof (select_id_row _ _ Hpaths' Hin') as E. cbn [row_id row_path] in E.
    now rewrite E, (of_string_hex _ Hu).
  - unfold get_path, fetchone. rewrite (of_string_str _ Hu).
    cbn [rows committed_now set_rows].
    pose proof (select_path_row _ _ Hone' Hin') as E. cbn [row_id row_path] in E.
    now rewrite E.
  - apply get_id_absent. cbn [rows committed_now set_rows]. fold old.
    apply path_taken_free. intros Hold.
    apply in_map_iff in Hold as (y & Hy & Hyin).
    apply in_map_iff in Hyin as (x & <- & Hx).
    unfold renamed, updated in Hy.
    destruct (String.eqb (row_id x) (hex u)) eqn:E; cbn [row_path] in Hy.
    + now apply Hneq.
    + assert (x = r).
      { apply (NoDup_map_inj row_path (rows c)); try assumption. congruence. }
      subst x. rewrite Hid, String.eqb_refl in E. discriminate.
  - intros q o Hq1 Hq2. apply get_id_same_select.
    cbn [rows committed_now set_rows]. apply select_id_map_frame.
    intros x Hx. unfold renamed. split; [apply updated_id |].
    unfold updated. destruct (String.eqb (row_id x) (hex u)) eqn:E; [| reflexivity].
    rewrite (Hsel x Hx E), Hp. cbn [row_path].
    transitivity false; [| symmetry]; apply String.eqb_neq; auto.
Qed.

Lemma move_renames_record_witness :
  consistent (rows (con_of_rows [mkRow "00000000000000000000000000000007" "a.txt"]))
  /\ ids_ok (rows (con_of_rows [mkRow "00000000000000000000000000000007" "a.txt"]))
  /\ exists c',
       move "a.txt" "b.txt" false
         (con_of_rows [mkRow "00000000000000000000000000000007" "a.txt"])
       = Ok "00000000-0000-0000-0000-000000000007" c'
       /\ get_id "b.txt" c'
          = Ok (Some "00000000-0000-0000-0000-000000000007"%string) c'
       /\ get_id "a.txt" c' = Ok None c'.
Proof.
  assert (Hcons : consistent
            (rows (con_of_rows [mkRow "00000000000000000000000000000007" "a.txt"]))).
  { split; (constructor; [intros [] | constructor]). }
  assert (Hids : ids_ok
            (rows (con_of_rows [mkRow "00000000000000000000000000000007" "a.txt"]))).
  { repeat constructor. }
  split; [exact Hcons |]. split; [exact Hids |].
  destruct (move_renames_record "a.txt" "b.txt"
              "00000000-0000-0000-0000-000000000007" _ Hcons Hids eq_refl eq_refl)
    as (c' & Hm & _ & Hnew & _ & Hold & _).
  exists c'. now repeat split.
Defined.

(** X9: [move] never overwrites a record.  On a table with unique and
    well-formed identifiers, [move] without [recursive] to a path that
    already has a record, from a different path, raises
    [IntegrityError], whether the old path has a record or not; the table
    is as before and nothing is committed. *)
Theorem move_onto_indexed_path_fails (old_path new_path : string) (c : Connection) :
  consistent (rows c) -> ids_ok (rows c) ->
  path_taken (_normalize_path new_path) (rows c) = true ->
  _normalize_path old_path <> _normalize_path new_path ->
  exists c',
    move old_path new_path false c = Raise IntegrityError c'
    /\ rows c' = rows c /\ committed c' = committed c.
Proof.
  intros [Hone Hpaths] Hids Htaken Hneq.
  destruct (get_id_ok old_path c Hids) as [[i |] Hg].
  - destruct (get_id_some_inv _ _ _ _ Hg) as (_ & r & u & Hin & Hp & Hu & ->).
    unfold ids_ok in Hids. rewrite Forall_forall in Hids.
    destruct (canonical_id_inv _ (Hids r Hin)) as (u' & Hr & Hu' & Hid).
    rewrite Hu in Hu'. injection Hu' as <-.
    exists c. split; [| now split].
    unfold move, bind, ret at 1.
    rewrite get_id_normalized, Hg, (of_string_str _ Hr).
    unfold execute, update_path. rewrite update_by_id_taken; [reflexivity | | |].
    + apply path_taken_In, in_map_iff in Htaken as (x & Hx & Hxin). now exists x.
    + intros y Hy Hyid Hyp.
      assert (y = r).
      { apply (NoDup_map_inj row_id (rows c)); try assumption. congruence. }
      subst y. apply Hneq. congruence.
    + now exists r.
  - exists (after_draw c). split; [| now split].
    unfold move, bind, ret at 1. rewrite get_id_normalized, Hg.
    unfold uuid4. fold (after_draw c).
    unfold _insert, execute, insert_row. cbn [rows after_draw row_id row_path].
    rewrite Htaken. now rewrite orb_true_r.
Qed.

Lemma move_onto_indexed_path_fails_witness :
  consistent (rows (con_of_rows [mkRow "00000000000000000000000000000007" "a.txt";
                                 mkRow "00000000000000000000000000000008" "b.txt"]))
  /\ exists c',
       move "a.txt" "b.txt" false
         (con_of_rows [mkRow "00000000000000000000000000000007" "a.txt";
                       mkRow "00000000000000000000000000000008" "b.txt"])
       = Raise IntegrityError c'
       /\ rows c' = [mkRow "00000000000000000000000000000007" "a.txt";
                     mkRow "00000000000000000000000000000008" "b.txt"].
Proof.
  assert (Hcons : consistent
            (rows (con_of_rows [mkRow "00000000000000000000000000000007" "a.txt";
                                mkRow "00000000000000000000000000000008" "b.txt"]))).
  { split; repeat (constructor; [cbn; intuition discriminate |]); constructor. }
  split; [exact Hcons |].
  assert (Hids : ids_ok
            (rows (con_of_rows [mkRow "00000000000000000000000000000007" "a.txt";
                                mkRow "00000000000000000000000000000008" "b.txt"])))
    by repeat constructor.
  assert (Hneq : _normalize_path "a.txt" <> _normalize_path "b.txt") by discriminate.
  destruct (move_onto_indexed_path_fails "a.txt" "b.txt" _ Hcons Hids eq_refl Hneq)
    as (c' & Hm & Hr & _).
  exists c'. split; [exact Hm | exact Hr].
Defined.

(** X10: moving a record onto its own path is harmless.  On a table with
    unique and well-formed identifiers, [move] without [recursive] from a
    path that has the identifier [i] to a path with the same normal form
    returns [i], leaves every row as it is, and commits. *)
Theorem move_onto_itself (old_path new_path i : string) (c : Connection) :
  consistent (rows c) -> ids_ok (rows c) ->
  get_id old_path c = Ok (Some i) c ->
  _normalize_path new_path = _normalize_path old_path ->
  move old_path new_path false c = Ok i (committed_now c).
Proof.
  intros [Hone Hpaths] Hids Hg Hsame.
  destruct (get_id_some_inv _ _ _ _ Hg) as (_ & r & u & Hin & Hp & Hu & ->).
  unfold ids_ok in Hids. rewrite Forall_forall in Hids.
  destruct (canonical_id_inv _ (Hids r Hin)) as (u' & Hr & Hu' & Hid).
  rewrite Hu in Hu'. injection Hu' as <-.
  unfold move, bind, ret at 1.
  rewrite get_id_normalized, Hg, (of_string_str _ Hr), Hsame, <- Hp, <- Hid.
  unfold execute, update_path.
  rewrite (update_by_id_same r [] (rows c)) by assumption.
  cbn [app]. unfold commit, ret, committed_now, set_rows. cbn. reflexivity.
Qed.

Lemma move_onto_itself_witness :
  consistent (rows (con_of_rows [mkRow "00000000000000000000000000000007" "a.txt"]))
  /\ move "a.txt" "./a.txt" false
       (con_of_rows [mkRow "00000000000000000000000000000007" "a.txt"])
     = Ok "00000000-0000-0000-0000-000000000007"
          (committed_now
             (con_of_rows [mkRow "00000000000000000000000000000007" "a.txt"])).
Proof.
  assert (Hcons : consistent
            (rows (con_of_rows [mkRow "00000000000000000000000000000007" "a.txt"]))).
  { split; (constructor; [intros [] | constructor]). }
  split; [exact Hcons |].
  apply (move_onto_itself "a.txt" "./a.txt"); try reflexivity; try exact Hcons.
  repeat constructor.
Defined.

(** ** What the calls leave alone *)

(** X11: [index] disturbs no other record.  When [index] returns, every
    path with another normal form has the identifier it had (or still
    none), and every identifier that had a path still has that path. *)
Theorem index_keeps_other_records (path i : string) (c c' : Connection) :
  index path c = Ok i c' ->
  (forall q o, _normalize_path q <> _normalize_path path ->
               get_id q c = Ok o c -> get_id q c' = Ok o c')
  /\ (forall j x, get_path j c = Ok (Some x) c -> get_path j c' = Ok (Some x) c').
Proof.
  intros H. apply index_added in H. split.
  - intros q o Hq. apply get_id_same_select.
    destruct H as [[-> _] | (-> & _ & _)]; [reflexivity |].
    apply select_id_app_other. cbn [row_path]. congruence.
  - intros j x. unfold get_path. destruct (of_string j) as [u |]; [| discriminate].
    unfold fetchone. intros [= E]. f_equal.
    destruct H as [[-> _] | (-> & _ & _)]; [exact E |].
    now apply select_path_app_found.
Qed.

Lemma index_keeps_other_records_witness :
  exists c',
    index "b.txt" (con_of_rows [mkRow "00000000000000000000000000000007" "a.txt"])
    = Ok "00000000-0000-4000-8000-000000000000" c'
    /\ get_id "a.txt" c'
       = Ok (Some "00000000-0000-0000-0000-000000000007"%string) c'
    /\ get_path "00000000-0000-0000-0000-000000000007" c'
       = Ok (Some "a.txt"%string) c'.
Proof.
  eexists. split; [reflexivity |].
  destruct (index_keeps_other_records "b.txt" _
              (con_of_rows [mkRow "00000000000000000000000000000007" "a.txt"])
              _ eq_refl) as [Hid Hpath].
  split.
  - apply Hid; [discriminate | reflexivity].
  - apply Hpath. reflexivity.
Defined.

(** X12: [delete] removes nothing else.  [delete] always returns; a path
    with another normal form keeps the identifier it had, provided, when
    [recursive], that it does not lie under the deleted path (for a
    deleted path without [GLOB] metacharacter and without NUL). *)
Theorem delete_keeps_other_records (path q : string) (recursive : bool)
    (o : option string) (c : Connection) :
  _normalize_path q <> _normalize_path path ->
  (recursive = true ->
   glob_free (_normalize_path path) = true
   /\ nul_free (_normalize_path path) = true
   /\ lies_under (_normalize_path path) (_normalize_path q) = false) ->
  get_id q c = Ok o c ->
  exists c', delete path recursive c = Ok tt c' /\ get_id q c' = Ok o c'.
Proof.
  intros Hq Hrec Hg. eexists. split; [apply delete_unfold |].
  revert Hg. apply get_id_same_select. unfold deleted. cbn [rows].
  rewrite select_id_delete_frame.
  - destruct recursive; [| reflexivity].
    destruct (Hrec eq_refl) as (Hfree & Hnul & Hunder).
    apply select_id_delete_frame. intros x _ Hx.
    now rewrite (under_lies_under _ _ Hfree Hnul), Hx.
  - intros x _ Hx. apply String.eqb_neq. congruence.
Qed.

Lemma delete_keeps_other_records_witness :
  exists c',
    delete "a" true
      (con_of_rows [mkRow "00000000000000000000000000000007" "a/b.txt";
                    mkRow "00000000000000000000000000000008" "ab/c.txt"])
    = Ok tt c'
    /\ get_id "ab/c.txt" c'
       = Ok (Some "00000000-0000-0000-0000-000000000008"%string) c'.
Proof.
  apply (delete_keeps_other_records "a" "ab/c.txt" true).
  - discriminate.
  - intros _. repeat split; reflexivity.
  - reflexivity.
Defined.

(** ** Commits *)

(** X13: when [insert], [move], [copy] or [delete] returns, nothing is
    left uncommitted: the committed table is the table the connection
    sees.  [index] commits when it creates a record, and otherwise leaves
    the connection, pending changes included, as it is. *)
Theorem returning_calls_commit (c c' : Connection) :
  (forall path fid i, insert path fid c = Ok i c' -> committed c' = rows c')
  /\ (forall old_path new_path recursive i,
        move old_path new_path recursive c = Ok i c' -> committed c' = rows c')
  /\ (forall from_path to_path recursive i,
        copy from_path to_path recursive c = Ok i c' -> committed c' = rows c')
  /\ (forall path recursive,
        delete path recursive c = Ok tt c' -> committed c' = rows c')
  /\ (forall path i,
        index path c = Ok i c' -> c' = c \/ committed c' = rows c').
Proof.
  repeat split.
  - intros path fid i H.
    now destruct (insert_ok_inv _ _ _ _ _ H) as (u & _ & _ & _ & _ & _ & Hc & _).
  - intros old_path new_path recursive i H. unfold move in H.
    apply bind_ok_inv in H as (_ & c1 & _ & H).
    apply bind_ok_inv in H as (fid & c2 & _ & H).
    apply bind_ok_inv in H as (j & c3 & _ & H).
    now apply commit_ret_inv in H as [_ ->].
  - intros from_path to_path recursive i H. unfold copy in H.
    apply bind_ok_inv in H as (_ & c1 & _ & H).
    apply bind_ok_inv in H as (_ & c2 & _ & H).
    now apply copy_tail in H as (_ & _ & _ & Hc).
  - intros path recursive H. rewrite delete_unfold in H. now injection H as <-.
  - intros path i H.
    destruct (get_id_cases path c) as [[[j |] Hg] | Hg].
    + rewrite (index_existing _ _ _ Hg) in H. left. now injection H.
    + rewrite (index_new _ _ Hg) in H.
      destruct (id_taken _ _); [discriminate |]. right. now injection H as _ <-.
    + unfold index, bind in H. rewrite get_id_normalized, Hg in H. discriminate.
Qed.

Lemma returning_calls_commit_witness :
  exists c',
    move "a" "b" true
      (mkCon [mkRow "00000000000000000000000000000007" "a/x"] [] counting_entropy 0)
    = Ok "00000000-0000-4000-8000-000000000000" c'
    /\ committed c' = rows c'
    /\ rows c' = [mkRow "00000000000000000000000000000007" "b/x";
                  mkRow "00000000000040008000000000000000" "b"].
Proof.
  eexists. split; [reflexivity |]. split; [| reflexivity].
  exact (proj1 (proj2 (returning_calls_commit
           (mkCon [mkRow "00000000000000000000000000000007" "a/x"] []
                  counting_entropy 0) _))
         "a" "b" true _ eq_refl).
Defined.

(** ** Copy of one record *)

(** X14: what a returning [copy] without [recursive] leaves behind.  The
    identifier returned is that of a record of [to_path], found by
    [get_path] and by [get_id]; [from_path] has a record with another
    identifier, the one it had before if it had one; and every other path
    has the identifier it had, or still none. *)
Theorem copy_single_record (from_path to_path i : string) (c c' : Connection) :
  ids_ok (rows c) ->
  copy from_path to_path false c = Ok i c' ->
  get_path i c' = Ok (Some (_normalize_path to_path)) c'
  /\ get_id to_path c' = Ok (Some i) c'
  /\ (exists k, get_id from_path c' = Ok (Some k) c' /\ k <> i
                /\ forall j, get_id from_path c = Ok (Some j) c -> k = j)
  /\ (forall q o,
        _normalize_path q <> _normalize_path from_path ->
        _normalize_path q <> _normalize_path to_path ->
        get_id q c = Ok o c -> get_id q c' = Ok o c').
Proof.
  intros Hids H. unfold copy in H. cbv zeta in H.
  apply bind_ok_inv in H as ([] & c1 & Hret & H).
  unfold ret in Hret. injection Hret as <-.
  apply bind_ok_inv in H as (k & c2 & Hidx & H).
  pose proof (copy_tail_path _ _ _ _ H) as Hfree_path.
  apply copy_tail in H as (-> & Hfree_id & Hrows & _).
  pose proof (index_get_id _ _ _ _ Hidx) as Hk.
  pose proof (index_added _ _ _ _ Hidx) as Hadd.
  rewrite normalize_idempotent in Hadd.
  assert (Hids2 : ids_ok (rows c2)).
  { destruct Hadd as [[-> _] | (-> & _ & _)]; [exact Hids |].
    apply ids_ok_app. split; [exact Hids |].
    repeat constructor. apply canonical_hex, next_uuid_range. }
  assert (Hne : _normalize_path to_path <> _normalize_path from_path).
  { intros E. apply get_id_some_inv in Hk as (_ & r & _ & Hin & Hp & _).
    rewrite normalize_idempotent in Hp.
    assert (path_taken (_normalize_path to_path) (rows c2) = true).
    { apply path_taken_In. rewrite E, <- Hp. now apply in_map. }
    congruence. }
  destruct (appended_found (next_uuid c2) (_normalize_path to_path) c' (rows c2)
              (next_uuid_range c2) Hfree_id Hfree_path Hrows
              (normalize_idempotent to_path)) as [Hgp Hgi].
  split; [exact Hgp |]. split; [now rewrite <- get_id_normalized |].
  split.
  - exists k. split; [| split].
    + rewrite <- get_id_normalized. revert Hk. apply get_id_same_select.
      rewrite Hrows, !normalize_idempotent. now apply select_id_app_other.
    + exact (get_id_other_than_free _ _ _ _ Hids2 (next_uuid_range c2) Hfree_id Hk).
    + intros j Hj. rewrite <- get_id_normalized in Hj.
      apply index_existing in Hj. congruence.
  - intros q o Hq1 Hq2. apply get_id_same_select. rewrite Hrows.
    rewrite select_id_app_other by (cbn [row_path]; congruence).
    destruct Hadd as [[-> _] | (-> & _ & _)]; [reflexivity |].
    apply select_id_app_other. cbn [row_path]. congruence.
Qed.

Lemma copy_single_record_witness :
  exists c',
    copy "a.txt" "b.txt" false
      (con_of_rows [mkRow "00000000000000000000000000000007" "a.txt"])
    = Ok "00000000-0000-4000-8000-000000000000" c'
    /\ get_path "00000000-0000-4000-8000-000000000000" c'
       = Ok (Some "b.txt"%string) c'
    /\ get_id "a.txt" c'
       = Ok (Some "00000000-0000-0000-0000-000000000007"%string) c'.
Proof.
  assert (Hids : ids_ok (rows (con_of_rows
                   [mkRow "00000000000000000000000000000007" "a.txt"])))
    by (repeat constructor).
  eexists. split; [reflexivity |].
  destruct (copy_single_record "a.txt" "b.txt" _ _ _ Hids eq_refl)
    as (Hp & _ & (k & Hk & _ & Hsame) & _).
  split; [exact Hp |].
  rewrite <- (Hsame "00000000-0000-0000-0000-000000000007"%string eq_refl).
  exact Hk.
Defined.

(** ** A failed copy of a subtree *)



(** ** Move of a subtree *)

(** X16: a returning [move] with [recursive], for an [old_path] without
    [GLOB] metacharacter and without NUL, on a table without duplicates
    and with well-formed identifiers.  A record whose path is [old_path],
    the separator and a suffix keeps its identifier and has the path
    [new_path], the separator and the suffix up to its first NUL (unless
    that is [old_path] itself, whose record the second half of [move]
    renames); a record that neither lies under [old_path] nor is its
    record is left as it was. *)
Theorem move_subtree_without_metacharacter (old_path new_path i : string)
    (c c' : Connection) :
  glob_free (_normalize_path old_path) = true ->
  nul_free (_normalize_path old_path) = true ->
  consistent (rows c) -> ids_ok (rows c) ->
  move old_path new_path true c = Ok i c' ->
  forall r, In r (rows c) ->
    (forall suffix,
       row_path r = (_normalize_path old_path ++ "/" ++ suffix)%string ->
       (_normalize_path new_path ++ "/" ++ cstr suffix)%string
       <> _normalize_path old_path ->
       In (mkRow (row_id r) (_normalize_path new_path ++ "/" ++ cstr suffix))
          (rows c'))
    /\ (lies_under (_normalize_path old_path) (row_path r) = false ->
        row_path r <> _normalize_path old_path ->
        In r (rows c')).
Proof. exact (move_subtree_plain old_path new_path i c c'). Qed.

Lemma move_subtree_without_metacharacter_witness :
  exists c',
    move "a" "b" true
      (con_of_rows [mkRow "00000000000000000000000000000007" "a/x/y.txt";
                    mkRow "00000000000000000000000000000008" "ab/z.txt"])
    = Ok "00000000-0000-4000-8000-000000000000" c'
    /\ In (mkRow "00000000000000000000000000000007" "b/x/y.txt") (rows c')
    /\ In (mkRow "00000000000000000000000000000008" "ab/z.txt") (rows c').
Proof.
  assert (Hcons : consistent (rows (con_of_rows
                    [mkRow "00000000000000000000000000000007" "a/x/y.txt";
                     mkRow "00000000000000000000000000000008" "ab/z.txt"]))).
  { split; cbn; repeat constructor; cbn; intuition discriminate. }
  assert (Hids : ids_ok (rows (con_of_rows
                   [mkRow "00000000000000000000000000000007" "a/x/y.txt";
                    mkRow "00000000000000000000000000000008" "ab/z.txt"])))
    by (repeat constructor).
  eexists. split; [reflexivity |].
  pose proof (move_subtree_without_metacharacter "a" "b" _ _ _
                eq_refl eq_refl Hcons Hids eq_refl) as H.
  split.
  - apply (proj1 (H (mkRow "00000000000000000000000000000007" "a/x/y.txt")
                    (or_introl eq_refl)) "x/y.txt"%string);
      [reflexivity | discriminate].
  - apply (proj2 (H (mkRow "00000000000000000000000000000008" "ab/z.txt")
                    (or_intror (or_introl eq_refl))));
      [reflexivity | discriminate].
Defined.

(** ** Delete *)



(** ** Identifiers handed out *)

(** X18: every identifier a call returns ([index], [insert], [get_id],
    [move], [copy]) is the hyphenated lower-case string of a 128-bit
    number, whatever the identifier column holds, and [get_path] reads it
    without [ValueError] on any connection. *)
Theorem returned_identifier_accepted (i : string) (c c' : Connection) :
  (exists path, index path c = Ok i c')
  \/ (exists path fid, insert path fid c = Ok i c')
  \/ (exists path, get_id path c = Ok (Some i) c')
  \/ (exists old_path new_path recursive,
        move old_path new_path recursive c = Ok i c')
  \/ (exists from_path to_path recursive,
        copy from_path to_path recursive c = Ok i c') ->
  exists u, (u < bits128)%N /\ i = str u
            /\ forall c2, exists o, get_path i c2 = Ok o c2.
Proof.
  intros H.
  assert (Hstr : exists u, (u < bits128)%N /\ i = str u).
  { destruct H as [(path & H) | [(path & fid & H) | [(path & H)
                  | [(o & n & r & H) | (f & t & r & H)]]]].
    - apply index_get_id in H. now apply get_id_returns_str in H.
    - apply insert_ok_inv in H as (u & Hu & -> & _). now exists u.
    - now apply get_id_returns_str in H.
    - now apply move_returns_str in H.
    - unfold copy in H. cbv zeta in H.
      apply bind_ok_inv in H as (_ & c1 & _ & H).
      apply bind_ok_inv in H as (_ & c2 & _ & H).
      apply copy_tail in H as (-> & _).
      eexists. split; [apply next_uuid_range | reflexivity]. }
  destruct Hstr as (u & Hu & ->). exists u.
  split; [exact Hu |]. split; [reflexivity |].
  intros c2. now apply get_path_of_str.
Qed.

Lemma returned_identifier_accepted_witness :
  exists u, (u < bits128)%N
            /\ "00000000-0000-0000-0000-0000000000ab"%string = str u
            /\ forall c2, exists o,
                 get_path "00000000-0000-0000-0000-0000000000ab" c2 = Ok o c2.
Proof.
  apply (returned_identifier_accepted _
           (con_of_rows [mkRow "0x0000000000000000000000000000AB" "a.txt"])
           (con_of_rows [mkRow "0x0000000000000000000000000000AB" "a.txt"])).
  right. right. left. exists "a.txt"%string. reflexivity.
Defined.

(** ** The subtree pattern *)



End Extras.
